(** * Ann Nova Defense: the simulation core of [src/App.tsx]

    A shallow embedding of the per-frame [update] callback, of
    [handleCanvasClick] and of [initGame], together with the properties
    of the specification that concern them.

    Conventions of the embedding.

    - A TypeScript [number] that carries a coordinate, a radius, a speed
      or a time is an element of a type [N] with the arithmetic of the
      interface [Number].  Two implementations are given: [F64], the
      IEEE 754 binary64 numbers of the kernel (what a JavaScript engine
      computes, NaN and infinities included), on which the code is run
      on concrete inputs; and [Exact], the real numbers extended with
      the infinities and NaN, where rounding is ignored, on which the
      geometric and the counting properties are proved.
    - A [number] that only ever carries an integer (entity ids, ammo,
      the score) is a [Z].
    - The React refs and the two pieces of React state the loop touches
      ([score], [gameState]) form the record [World]; a callback that
      mutates an object of an array in place writes the new object back
      at its index.
    - [Math.random] and [performance.now] are inputs of the functions. *)

From Stdlib Require Import String.
From Stdlib Require Import ZArith List Bool Lia.
From Stdlib Require Import QArith Qround Qreals.
From Stdlib Require Import Floats.
From Stdlib Require Import Reals Lra.
Import ListNotations.

Close Scope R_scope.
Close Scope Q_scope.

Set Implicit Arguments.

(** ** The arithmetic of TypeScript numbers *)

Class Number (N : Type) : Type := {
  lit   : Q -> N;              (* a numeric literal of the source *)
  inf   : N;                   (* Infinity *)
  nadd  : N -> N -> N;
  nsub  : N -> N -> N;
  nmul  : N -> N -> N;
  ndiv  : N -> N -> N;
  nsqrt : N -> N;              (* Math.sqrt *)
  nabs  : N -> N;              (* Math.abs *)
  nmax  : N -> N -> N;         (* Math.max *)
  nltb  : N -> N -> bool;      (* a < b *)
  nleb  : N -> N -> bool       (* a <= b *)
}.

Declare Scope num_scope.
Delimit Scope num_scope with num.
Infix "+" := nadd : num_scope.
Infix "-" := nsub : num_scope.
Infix "*" := nmul : num_scope.
Infix "/" := ndiv : num_scope.
Infix "<?" := nltb : num_scope.
Infix "<=?" := nleb : num_scope.
Notation "a >? b" := (nltb b a) (at level 70) : num_scope.
Notation "a >=? b" := (nleb b a) (at level 70) : num_scope.

(** An integer-valued number used in an arithmetic expression. *)
Definition ofInt {N} `{Number N} (z : Z) : N := lit (inject_Z z).

(** *** IEEE 754 binary64 *)

Module F64.

Definition ofZ (z : Z) : float := SF2Prim (binary_normalize prec emax z 0 false).

(** A decimal literal denotes the double nearest to it; for the
    literals of the source (numerator and denominator below 2^53)
    that is the correctly rounded quotient. *)
Definition ofQ (q : Q) : float := PrimFloat.div (ofZ (Qnum q)) (ofZ (Zpos (Qden q))).

(** [Math.max]: NaN when an argument is NaN. *)
Definition fmax (a b : float) : float :=
  if PrimFloat.is_nan a || PrimFloat.is_nan b then PrimFloat.nan
  else if PrimFloat.ltb a b then b else a.

#[global] Instance number : Number float := {|
  lit := ofQ;
  inf := PrimFloat.infinity;
  nadd := PrimFloat.add;
  nsub := PrimFloat.sub;
  nmul := PrimFloat.mul;
  ndiv := PrimFloat.div;
  nsqrt := PrimFloat.sqrt;
  nabs := PrimFloat.abs;
  nmax := fmax;
  nltb := PrimFloat.ltb;
  nleb := PrimFloat.leb
|}.

End F64.

(** The literals of the source, as the engine reads them. *)
Lemma literals_binary64 :
  (lit 0.8 = 0x1.999999999999ap-1)%float /\ (lit 1.5 = 0x1.8p+0)%float
  /\ (lit 30 = 30)%float /\ (lit 80 = 80)%float /\ (lit 6 = 6)%float
  /\ (lit 500 = 500)%float /\ (lit 2000 = 2000)%float.
Proof. repeat split; vm_compute; reflexivity. Qed.

(** *** Exact arithmetic: the reals with infinities and NaN *)

Module Exact.

Local Open Scope R_scope.

Inductive xreal : Type :=
| NaN : xreal
| Inf (neg : bool) : xreal
| Fin (r : R) : xreal.

Definition Rneg (r : R) : bool := if Rlt_dec r 0 then true else false.
Definition Rzero (r : R) : bool := if Req_dec_T r 0 then true else false.

Definition xadd (a b : xreal) : xreal :=
  match a, b with
  | NaN, _ | _, NaN => NaN
  | Inf s, Inf s' => if Bool.eqb s s' then Inf s else NaN
  | Inf s, Fin _ | Fin _, Inf s => Inf s
  | Fin u, Fin v => Fin (u + v)
  end.

Definition xopp (a : xreal) : xreal :=
  match a with
  | NaN => NaN
  | Inf s => Inf (negb s)
  | Fin u => Fin (- u)
  end.

Definition xsub (a b : xreal) : xreal := xadd a (xopp b).

Definition xmul (a b : xreal) : xreal :=
  match a, b with
  | NaN, _ | _, NaN => NaN
  | Inf s, Inf s' => Inf (xorb s s')
  | Inf s, Fin u | Fin u, Inf s => if Rzero u then NaN else Inf (xorb s (Rneg u))
  | Fin u, Fin v => Fin (u * v)
  end.

(** The sign of a zero is not tracked: a zero divisor counts as +0. *)
Definition xdiv (a b : xreal) : xreal :=
  match a, b with
  | NaN, _ | _, NaN => NaN
  | Inf _, Inf _ => NaN
  | Inf s, Fin v => Inf (xorb s (Rneg v))
  | Fin _, Inf _ => Fin 0
  | Fin u, Fin v =>
      if Rzero v then (if Rzero u then NaN else Inf (Rneg u))
      else Fin (u / v)
  end.

Definition xsqrt (a : xreal) : xreal :=
  match a with
  | NaN => NaN
  | Inf s => if s then NaN else Inf false
  | Fin u => if Rneg u then NaN else Fin (sqrt u)
  end.

Definition xabs (a : xreal) : xreal :=
  match a with
  | NaN => NaN
  | Inf _ => Inf false
  | Fin u => Fin (Rabs u)
  end.

Definition xltb (a b : xreal) : bool :=
  match a, b with
  | NaN, _ | _, NaN => false
  | Inf s, Inf s' => s && negb s'
  | Inf s, Fin _ => s
  | Fin _, Inf s => negb s
  | Fin u, Fin v => if Rlt_dec u v then true else false
  end.

Definition xleb (a b : xreal) : bool :=
  match a, b with
  | NaN, _ | _, NaN => false
  | Inf s, Inf s' => s || negb s'
  | Inf s, Fin _ => s
  | Fin _, Inf s => negb s
  | Fin u, Fin v => if Rle_dec u v then true else false
  end.

Definition xmax (a b : xreal) : xreal :=
  match a, b with
  | NaN, _ | _, NaN => NaN
  | _, _ => if xltb a b then b else a
  end.

#[global] Instance number : Number xreal := {|
  lit := fun q => Fin (Q2R q);
  inf := Inf false;
  nadd := xadd;
  nsub := xsub;
  nmul := xmul;
  ndiv := xdiv;
  nsqrt := xsqrt;
  nabs := xabs;
  nmax := xmax;
  nltb := xltb;
  nleb := xleb
|}.

End Exact.

(** ** Data model (the type declarations of [App.tsx]) *)

Module Point.
Record t (N : Type) : Type := mk { x : N; y : N }.
End Point.

Module Rocket.
Record t (N : Type) : Type := mk {
  id : Z;
  start : Point.t N;
  current : Point.t N;
  target : Point.t N;
  speed : N;
  color : String.string
}.
Definition with_current {N} (p : Point.t N) (r : t N) : t N :=
  mk (id r) (start r) p (target r) (speed r) (color r).
Definition with_id {N} (i : Z) (r : t N) : t N :=
  mk i (start r) (current r) (target r) (speed r) (color r).
End Rocket.

Module Missile.
Record t (N : Type) : Type := mk {
  id : Z;
  start : Point.t N;
  current : Point.t N;
  target : Point.t N;
  speed : N;
  turretIndex : Z
}.
Definition with_current {N} (p : Point.t N) (m : t N) : t N :=
  mk (id m) (start m) p (target m) (speed m) (turretIndex m).
Definition with_id {N} (i : Z) (m : t N) : t N :=
  mk i (start m) (current m) (target m) (speed m) (turretIndex m).
End Missile.

Module Explosion.
Record t (N : Type) : Type := mk {
  id : Z;
  pos : Point.t N;
  radius : N;
  maxRadius : N;
  growing : bool;
  done : bool
}.
End Explosion.

Module City.
Record t (N : Type) : Type := mk { id : Z; x : N; active : bool }.
Definition with_active {N} (b : bool) (c : t N) : t N := mk (id c) (x c) b.
End City.

Module Turret.
Record t (N : Type) : Type := mk {
  id : Z;
  x : N;
  ammo : Z;
  maxAmmo : Z;
  active : bool
}.
Definition with_active {N} (b : bool) (c : t N) : t N :=
  mk (id c) (x c) (ammo c) (maxAmmo c) b.
Definition with_ammo {N} (a : Z) (c : t N) : t N :=
  mk (id c) (x c) a (maxAmmo c) (active c).
End Turret.

Inductive GameState : Type := START | PLAYING | WON | LOST.

Definition GameState_eqb (a b : GameState) : bool :=
  match a, b with
  | START, START | PLAYING, PLAYING | WON, WON | LOST, LOST => true
  | _, _ => false
  end.

Definition CITY_COUNT : Z := 6%Z.
Definition TURRET_COUNT : Z := 3%Z.
Definition WIN_SCORE : Z := 1000%Z.
Definition ROCKET_SCORE : Z := 20%Z.
Definition TURRET_AMMO : list Z := [20; 40; 20]%Z.

(** The canvas, as far as the simulation reads it. *)
Record Canvas (N : Type) : Type := mkCanvas { width : N; height : N }.

(** The refs of the component and its React state. *)
Record World (N : Type) : Type := mkWorld {
  rocketsRef : list (Rocket.t N);
  missilesRef : list (Missile.t N);
  explosionsRef : list (Explosion.t N);
  citiesRef : list (City.t N);
  turretsRef : list (Turret.t N);
  nextIdRef : Z;
  lastSpawnTimeRef : N;
  score : Z;
  gameState : GameState
}.

Section Store.
Context {N : Type}.
Implicit Type w : World N.

Definition set_rockets (l : list (Rocket.t N)) w : World N :=
  mkWorld l (missilesRef w) (explosionsRef w) (citiesRef w) (turretsRef w)
          (nextIdRef w) (lastSpawnTimeRef w) (score w) (gameState w).
Definition set_missiles (l : list (Missile.t N)) w : World N :=
  mkWorld (rocketsRef w) l (explosionsRef w) (citiesRef w) (turretsRef w)
          (nextIdRef w) (lastSpawnTimeRef w) (score w) (gameState w).
Definition set_explosions (l : list (Explosion.t N)) w : World N :=
  mkWorld (rocketsRef w) (missilesRef w) l (citiesRef w) (turretsRef w)
          (nextIdRef w) (lastSpawnTimeRef w) (score w) (gameState w).
Definition set_cities (l : list (City.t N)) w : World N :=
  mkWorld (rocketsRef w) (missilesRef w) (explosionsRef w) l (turretsRef w)
          (nextIdRef w) (lastSpawnTimeRef w) (score w) (gameState w).
Definition set_turrets (l : list (Turret.t N)) w : World N :=
  mkWorld (rocketsRef w) (missilesRef w) (explosionsRef w) (citiesRef w) l
          (nextIdRef w) (lastSpawnTimeRef w) (score w) (gameState w).
Definition set_nextId (i : Z) w : World N :=
  mkWorld (rocketsRef w) (missilesRef w) (explosionsRef w) (citiesRef w)
          (turretsRef w) i (lastSpawnTimeRef w) (score w) (gameState w).
Definition set_lastSpawnTime (t : N) w : World N :=
  mkWorld (rocketsRef w) (missilesRef w) (explosionsRef w) (citiesRef w)
          (turretsRef w) (nextIdRef w) t (score w) (gameState w).
(** [setScore(f)] with an updater function. *)
Definition setScore (f : Z -> Z) w : World N :=
  mkWorld (rocketsRef w) (missilesRef w) (explosionsRef w) (citiesRef w)
          (turretsRef w) (nextIdRef w) (lastSpawnTimeRef w) (f (score w))
          (gameState w).
Definition setGameState (g : GameState) w : World N :=
  mkWorld (rocketsRef w) (missilesRef w) (explosionsRef w) (citiesRef w)
          (turretsRef w) (nextIdRef w) (lastSpawnTimeRef w) (score w) g.

End Store.

(** ** Arrays *)

(** Assignment to the element at index [k] (no effect out of range: the
    callbacks below only write at the index they were called with). *)
Fixpoint writeAt {A} (k : nat) (a : A) (l : list A) : list A :=
  match l, k with
  | [], _ => []
  | _ :: l', O => a :: l'
  | b :: l', S k' => b :: writeAt k' a l'
  end.

(** [Array.prototype.forEach] over an array held in a store [S].  The
    length is read once, before the first call; the element at each
    index is read from the store when its turn comes, so the callback
    sees what earlier calls wrote, and what a call appends beyond the
    initial length is not visited. *)
Section ForEach.
Context {S A : Type}.
Variable arr : S -> list A.
Variable body : nat -> A -> S -> S.

Fixpoint forEach_from (k n : nat) (s : S) : S :=
  match n with
  | O => s
  | Datatypes.S n' =>
      forEach_from (Datatypes.S k) n'
        (match nth_error (arr s) k with
         | Some a => body k a s
         | None => s
         end)
  end.

Definition forEach (s : S) : S := forEach_from 0 (length (arr s)) s.
End ForEach.

Arguments lit {N Number} q%_Q.

(** ** The environment of a frame and of a click *)

Record TickEnv (N : Type) : Type := mkTickEnv {
  time : N;                     (* the timestamp handed to [update] *)
  canvas : option (Canvas N);   (* the canvas and its 2d context, when both exist *)
  random_start : N;             (* [Math.random()] of line 175 *)
  random_pick : nat             (* [Math.floor(Math.random() * activeTargets.length)] *)
}.

Record ClickEnv (N : Type) : Type := mkClickEnv {
  click_canvas : option (Canvas N);
  clientX : N;
  clientY : N;
  rect_left : N;
  rect_top : N
}.

Record InitEnv (N : Type) : Type := mkInitEnv {
  innerWidth : N;
  innerHeight : N;
  now : N                       (* [performance.now()] *)
}.

(** ** The program *)

Section Program.
Context {N : Type} `{Number N}.
Local Open Scope num_scope.

Definition square (a : N) : N := a * a.      (* [a ** 2] *)

Definition getDistance (p1 p2 : Point.t N) : N :=
  nsqrt (square (Point.x p1 - Point.x p2) + square (Point.y p1 - Point.y p2)).

Definition newExplosion (i : Z) (p : Point.t N) (maxR : Q) : Explosion.t N :=
  Explosion.mk i p (lit 0) (lit maxR) true false.

(** [explosionsRef.current.push({ id: nextIdRef.current++, ... })] *)
Definition pushExplosion (p : Point.t N) (maxR : Q) (w : World N) : World N :=
  set_nextId (nextIdRef w + 1)%Z
    (set_explosions (explosionsRef w ++ [newExplosion (nextIdRef w) p maxR]) w).

(** *** 1. Spawn rockets (lines 173-194) *)

Definition activeTargets (w : World N) : list (N * String.string) :=
  map (fun c => (City.x c, "city"%string)) (filter (@City.active N) (citiesRef w)) ++
  map (fun t => (Turret.x t, "turret"%string)) (filter (@Turret.active N) (turretsRef w)).

(** [None] is the TypeError of reading [target.x] on [undefined]; it
    needs an index outside the array, which [Math.random() < 1]
    excludes. *)
Definition spawnRockets (env : TickEnv N) (cv : Canvas N) (score0 : Z)
                        (w : World N) : option (World N) :=
  let spawnRate := nmax (lit 500) (lit 2000 - (ofInt score0 / lit 100) * lit 200) in
  if (time env - lastSpawnTimeRef w) >? spawnRate then
    let startX := random_start env * width cv in
    let targets := activeTargets w in
    if (0 <? List.length targets)%nat then
      match nth_error targets (random_pick env) with
      | None => None
      | Some target =>
          let rocket :=
            Rocket.mk (nextIdRef w)
                      (Point.mk startX (lit 0))
                      (Point.mk startX (lit 0))
                      (Point.mk (fst target) (height cv - lit 20))
                      ((lit 1 + ofInt score0 / lit 500) * lit 0.8)
                      "#ef4444"%string in
          Some (set_lastSpawnTime (time env)
                  (set_nextId (nextIdRef w + 1)%Z
                     (set_rockets (rocketsRef w ++ [rocket]) w)))
      end
    else Some (set_lastSpawnTime (time env) w)
  else Some w.

(** *** 2. and 3. Kinematics and impacts (lines 197-255) *)

(** Lines 198-205 for a rocket and 233-240 for a missile: one step of
    length [speed] along the direction from [start] to [target]. *)
Definition advance (start current target : Point.t N) (speed : N) : Point.t N :=
  let dx := Point.x target - Point.x start in
  let dy := Point.y target - Point.y start in
  let dist := nsqrt (dx * dx + dy * dy) in
  let vx := (dx / dist) * speed in
  let vy := (dy / dist) * speed in
  Point.mk (Point.x current + vx) (Point.y current + vy).

Definition damageCity (p : Point.t N) (city : City.t N) : City.t N :=
  if City.active city && (nabs (City.x city - Point.x p) <? lit 30)
  then City.with_active false city else city.

Definition damageTurret (p : Point.t N) (turret : Turret.t N) : Turret.t N :=
  if Turret.active turret && (nabs (Turret.x turret - Point.x p) <? lit 30)
  then Turret.with_active false turret else turret.

(** The callback of [rocketsRef.current.forEach] at line 197. *)
Definition rocketStep (k : nat) (rocket : Rocket.t N) (w : World N) : World N :=
  let cur := advance (Rocket.start rocket) (Rocket.current rocket)
                     (Rocket.target rocket) (Rocket.speed rocket) in
  let rocket1 := Rocket.with_current cur rocket in
  if Point.y cur >=? Point.y (Rocket.target rocket) then
    let w1 := pushExplosion cur 30 w in
    let rocket2 := Rocket.with_id (-1) rocket1 in
    let w2 := set_cities (map (damageCity cur) (citiesRef w1)) w1 in
    let w3 := set_turrets (map (damageTurret cur) (turretsRef w2)) w2 in
    set_rockets (writeAt k rocket2 (rocketsRef w3)) w3
  else set_rockets (writeAt k rocket1 (rocketsRef w)) w.

Definition rocketAlive (r : Rocket.t N) : bool := negb (Rocket.id r =? -1)%Z.
Definition missileAlive (m : Missile.t N) : bool := negb (Missile.id m =? -1)%Z.

Definition updateRockets (w : World N) : World N :=
  let w1 := forEach (@rocketsRef N) rocketStep w in
  set_rockets (filter rocketAlive (rocketsRef w1)) w1.

(** The callback of [missilesRef.current.forEach] at line 232. *)
Definition missileStep (k : nat) (missile : Missile.t N) (w : World N) : World N :=
  let cur := advance (Missile.start missile) (Missile.current missile)
                     (Missile.target missile) (Missile.speed missile) in
  let missile1 := Missile.with_current cur missile in
  if getDistance cur (Missile.target missile) <? Missile.speed missile then
    let w1 := pushExplosion (Missile.target missile) 80 w in
    set_missiles (writeAt k (Missile.with_id (-1) missile1) (missilesRef w1)) w1
  else set_missiles (writeAt k missile1 (missilesRef w)) w.

Definition updateMissiles (w : World N) : World N :=
  let w1 := forEach (@missilesRef N) missileStep w in
  set_missiles (filter missileAlive (missilesRef w1)) w1.

(** *** 4. Explosions (lines 258-284) *)

(** Lines 259-265: the radius animation of one explosion. *)
Definition animate (exp : Explosion.t N) : Explosion.t N :=
  if Explosion.growing exp then
    let r := Explosion.radius exp + lit 1.5 in
    Explosion.mk (Explosion.id exp) (Explosion.pos exp) r (Explosion.maxRadius exp)
                 (if r >=? Explosion.maxRadius exp then false else true)
                 (Explosion.done exp)
  else
    let r := Explosion.radius exp - lit 0.8 in
    Explosion.mk (Explosion.id exp) (Explosion.pos exp) r (Explosion.maxRadius exp)
                 false
                 (if r <=? lit 0 then true else Explosion.done exp).

(** The callback of the inner [rocketsRef.current.forEach] at line
    268; [exp] is the explosion of the enclosing call, already
    animated. *)
Definition collide (exp : Explosion.t N) (j : nat) (rocket : Rocket.t N)
                   (w : World N) : World N :=
  if getDistance (Explosion.pos exp) (Rocket.current rocket) <? Explosion.radius exp then
    let w1 := set_rockets (writeAt j (Rocket.with_id (-1) rocket) (rocketsRef w)) w in
    let w2 := setScore (fun s => s + ROCKET_SCORE)%Z w1 in
    pushExplosion (Rocket.current rocket) 30 w2
  else w.

(** The callback of [explosionsRef.current.forEach] at line 258. *)
Definition explosionStep (k : nat) (exp : Explosion.t N) (w : World N) : World N :=
  let exp1 := animate exp in
  let w1 := set_explosions (writeAt k exp1 (explosionsRef w)) w in
  forEach (@rocketsRef N) (collide exp1) w1.

Definition explosionAlive (e : Explosion.t N) : bool := negb (Explosion.done e).

Definition updateExplosions (w : World N) : World N :=
  let w1 := forEach (@explosionsRef N) explosionStep w in
  set_explosions (filter explosionAlive (explosionsRef w1)) w1.

(** *** 5. Win and loss (lines 287-292) *)

Definition allTurretsDown (w : World N) : bool :=
  forallb (fun t => negb (Turret.active t)) (turretsRef w).

(** [score0] is the [score] the closure of [update] captured. *)
Definition checkWinLoss (score0 : Z) (w : World N) : World N :=
  let w1 := if (score0 >=? WIN_SCORE)%Z then setGameState WON w else w in
  if allTurretsDown w1 then setGameState LOST w1 else w1.

(** *** The frame callback (lines 161-292; drawing omitted) *)

Definition update (env : TickEnv N) (w : World N) : option (World N) :=
  if negb (GameState_eqb (gameState w) PLAYING) then Some w
  else
    match canvas env with
    | None => Some w
    | Some cv =>
        let score0 := score w in
        match spawnRockets env cv score0 w with
        | None => None
        | Some w1 =>
            Some (checkWinLoss score0
                    (updateExplosions (updateMissiles (updateRockets w1))))
        end
    end.

(** *** The input router (lines 402-440) *)

(** The [forEach] of line 419: [best] is the index of [bestTurret] in
    [turretsRef.current]. *)
Fixpoint closestTurret (x : N) (ts : list (Turret.t N)) (k : nat)
                       (best : option nat) (minDist : N) : option nat :=
  match ts with
  | [] => best
  | t :: ts' =>
      if Turret.active t && (Turret.ammo t >? 0)%Z then
        let d := nabs (Turret.x t - x) in
        if d <? minDist then closestTurret x ts' (S k) (Some k) d
        else closestTurret x ts' (S k) best minDist
      else closestTurret x ts' (S k) best minDist
  end.

Definition handleCanvasClick (e : ClickEnv N) (w : World N) : World N :=
  if negb (GameState_eqb (gameState w) PLAYING) then w
  else
    match click_canvas e with
    | None => w
    | Some cv =>
        let x := clientX e - rect_left e in
        let y := clientY e - rect_top e in
        match closestTurret x (turretsRef w) 0 None inf with
        | None => w
        | Some k =>
            match nth_error (turretsRef w) k with
            | None => w
            | Some bestTurret =>
                let fired := Turret.with_ammo (Turret.ammo bestTurret - 1)%Z bestTurret in
                let w1 := set_turrets (writeAt k fired (turretsRef w)) w in
                let missile :=
                  Missile.mk (nextIdRef w1)
                             (Point.mk (Turret.x fired) (height cv - lit 50))
                             (Point.mk (Turret.x fired) (height cv - lit 50))
                             (Point.mk x y)
                             (lit 6)
                             (Z.of_nat k) in
                set_nextId (nextIdRef w1 + 1)%Z
                  (set_missiles (missilesRef w1 ++ [missile]) w1)
            end
        end
    end.

(** *** Initialisation (lines 115-157) *)

(** The body of the loop of line 129 for slot [i]. *)
Definition placeSlot (slotWidth : N)
    (st : list (Turret.t N) * list (City.t N) * nat) (i : Z)
  : list (Turret.t N) * list (City.t N) * nat :=
  let '(turrets, cities, turretIdx) := st in
  let x := ofInt i * slotWidth in
  if ((i =? 1) || (i =? 5) || (i =? 9))%Z then
    (turrets ++ [Turret.mk i x (nth turretIdx TURRET_AMMO 0%Z)
                            (nth turretIdx TURRET_AMMO 0%Z) true],
     cities, S turretIdx)
  else (turrets, cities ++ [City.mk i x true], turretIdx).

Definition initGame (e : InitEnv N) (w : World N) : World N :=
  let totalSlots := (TURRET_COUNT + CITY_COUNT)%Z in
  let slotWidth := innerWidth e / ofInt (totalSlots + 1) in
  let '(turrets, cities, _) :=
    fold_left (placeSlot slotWidth)
              (map Z.of_nat (seq 1 (Z.to_nat totalSlots))) ([], [], O) in
  mkWorld [] [] [] cities turrets (nextIdRef w) (now e) 0%Z PLAYING.

(** The component when it mounts (lines 96-109). *)
Definition initialWorld : World N := mkWorld [] [] [] [] [] 0%Z (lit 0) 0%Z START.

End Program.

(** The worlds a session can be in: the component mounts, and then
    matches are started, frames run and clicks arrive in any order. *)
Inductive Reachable {N : Type} `{Number N} : World N -> Prop :=
| reach_mount : Reachable initialWorld
| reach_init (e : InitEnv N) (w : World N) :
    Reachable w -> Reachable (initGame e w)
| reach_frame (env : TickEnv N) (w w' : World N) :
    Reachable w -> update env w = Some w' -> Reachable w'
| reach_click (e : ClickEnv N) (w : World N) :
    Reachable w -> Reachable (handleCanvasClick e w).

(** What a click that fires does to the turrets: the turret at one
    index, active and with ammo, has its ammo lowered by one. *)
Definition fires {N : Type} (ts ts' : list (Turret.t N)) : Prop :=
  exists k t,
    nth_error ts k = Some t /\ Turret.active t = true /\ (0 < Turret.ammo t)%Z
    /\ ts' = writeAt k (Turret.with_ammo (Turret.ammo t - 1)%Z t) ts.

(** ** Reasoning about [forEach] *)

Lemma writeAt_app_here {A} (pre : list A) (a b : A) (post : list A) :
  writeAt (List.length pre) b (pre ++ a :: post) = pre ++ b :: post.
Proof.
  induction pre as [|c pre IH]; simpl; [reflexivity|].
  now rewrite IH.
Qed.

Lemma nth_error_app_here {A} (pre : list A) (a : A) (post : list A) :
  nth_error (pre ++ a :: post) (List.length pre) = Some a.
Proof.
  induction pre as [|c pre IH]; simpl; [reflexivity|exact IH].
Qed.

Lemma writeAt_length {A} (k : nat) (a : A) (l : list A) :
  List.length (writeAt k a l) = List.length l.
Proof.
  revert k; induction l as [|b l IH]; intros [|k]; simpl; auto.
Qed.

Section ForEachFacts.
Context {S A : Type}.
Variable arr : S -> list A.
Variable body : nat -> A -> S -> S.

(** A property that every call of the callback preserves holds after
    the loop. *)
Lemma forEach_from_preserves (P : S -> Prop) :
  (forall k a s, nth_error (arr s) k = Some a -> P s -> P (body k a s)) ->
  forall n k s, P s -> P (forEach_from arr body k n s).
Proof.
  intros Hbody n; induction n as [|n IH]; intros k s Hs; simpl; [exact Hs|].
  apply IH. destruct (nth_error (arr s) k) eqn:E; auto.
Qed.

Lemma forEach_preserves (P : S -> Prop) :
  (forall k a s, nth_error (arr s) k = Some a -> P s -> P (body k a s)) ->
  forall s, P s -> P (forEach arr body s).
Proof. intros Hbody s Hs. unfold forEach. now apply forEach_from_preserves. Qed.

(** A callback that replaces the element it is called with by [upd]
    of it, appends elements satisfying [Q], and acts on a view [f] of
    the store by [g]. *)
Variable upd : A -> A.
Variable Q : A -> Prop.
Context {T : Type}.
Variable f : S -> T.
Variable g : A -> T -> T.

Hypothesis body_arr : forall k a s,
  nth_error (arr s) k = Some a ->
  exists p, arr (body k a s) = writeAt k (upd a) (arr s) ++ p /\ Forall Q p.
Hypothesis body_view : forall k a s,
  nth_error (arr s) k = Some a -> f (body k a s) = g a (f s).

Lemma forEach_from_spec : forall todo pre q s,
  arr s = map upd pre ++ todo ++ q ->
  Forall Q q ->
  exists q',
    arr (forEach_from arr body (List.length pre) (List.length todo) s)
      = map upd pre ++ map upd todo ++ q'
    /\ Forall Q q'
    /\ f (forEach_from arr body (List.length pre) (List.length todo) s)
      = fold_left (fun t a => g a t) todo (f s).
Proof.
  induction todo as [|a todo IH]; intros pre q s Harr Hq.
  - exists q. simpl in *. auto.
  - simpl forEach_from.
    assert (Hn : nth_error (arr s) (List.length pre) = Some a).
    { rewrite Harr. rewrite <- (length_map upd pre). apply nth_error_app_here. }
    rewrite Hn.
    destruct (body_arr _ _ Hn) as (p & Hp & HQp).
    assert (Harr' : arr (body (List.length pre) a s)
                    = map upd (pre ++ [a]) ++ todo ++ (q ++ p)).
    { rewrite Hp, Harr. rewrite <- (length_map upd pre).
      simpl app. rewrite writeAt_app_here.
      rewrite map_app. simpl. rewrite <- !app_assoc. simpl.
      now rewrite <- app_assoc. }
    destruct (IH (pre ++ [a]) (q ++ p) _ Harr') as (q' & H1 & H2 & H3).
    { apply Forall_app; auto. }
    rewrite length_app in H1, H3. simpl in H1, H3.
    rewrite Nat.add_1_r in H1, H3.
    exists q'. rewrite H1, H3. repeat split; auto.
    + rewrite map_app. simpl. now rewrite <- app_assoc.
    + simpl. now rewrite (body_view _ _ Hn).
Qed.

Lemma forEach_spec (s : S) :
  exists q,
    arr (forEach arr body s) = map upd (arr s) ++ q
    /\ Forall Q q
    /\ f (forEach arr body s) = fold_left (fun t a => g a t) (arr s) (f s).
Proof.
  unfold forEach.
  destruct (@forEach_from_spec (arr s) [] [] s) as (q & H1 & H2 & H3).
  - simpl. now rewrite app_nil_r.
  - constructor.
  - exists q. simpl in *. auto.
Qed.

End ForEachFacts.

Section ForEachCorollaries.
Context {S A : Type}.
Variable arr : S -> list A.
Variable body : nat -> A -> S -> S.
Variable upd : A -> A.

(** A callback that only rewrites its own element maps the array. *)
Lemma forEach_map :
  (forall k a s, nth_error (arr s) k = Some a ->
                 arr (body k a s) = writeAt k (upd a) (arr s)) ->
  forall s, arr (forEach arr body s) = map upd (arr s).
Proof.
  intros Hbody s.
  destruct (@forEach_spec S A arr body upd (fun _ => False) unit
              (fun _ => tt) (fun _ _ => tt)) with (s := s)
    as (q & Hq & HF & _).
  - intros k a s0 Hn. exists []. rewrite app_nil_r. split; [now apply Hbody|constructor].
  - reflexivity.
  - destruct q as [|b q]; [now rewrite app_nil_r in Hq|].
    inversion HF; contradiction.
Qed.

(** The effect of the loop on a view of the store is the fold of the
    effects of the calls, taken on the elements the array held when
    the loop began. *)
Lemma forEach_fold {T} (f : S -> T) (g : A -> T -> T) :
  (forall k a s, nth_error (arr s) k = Some a ->
                 exists p, arr (body k a s) = writeAt k (upd a) (arr s) ++ p) ->
  (forall k a s, nth_error (arr s) k = Some a -> f (body k a s) = g a (f s)) ->
  forall s, f (forEach arr body s) = fold_left (fun t a => g a t) (arr s) (f s).
Proof.
  intros Harr Hview s.
  destruct (@forEach_spec S A arr body upd (fun _ => True) T f g) with (s := s)
    as (q & _ & _ & Hf); auto.
  intros k a s0 Hn. destruct (Harr k a s0 Hn) as (p & Hp).
  exists p. split; [exact Hp|]. apply Forall_forall. auto.
Qed.

End ForEachCorollaries.

(** ** What each sub-step of [update] does to the collections *)

Section Steps.
Context {N : Type} `{Number N}.
Local Open Scope num_scope.

(** *** Rockets (step 2) *)

Definition rocketMoved (r : Rocket.t N) : Rocket.t N :=
  Rocket.with_current
    (advance (Rocket.start r) (Rocket.current r) (Rocket.target r) (Rocket.speed r)) r.

Definition rocketLands (r : Rocket.t N) : bool :=
  Point.y (Rocket.current (rocketMoved r)) >=? Point.y (Rocket.target r).

Definition rocketAfter (r : Rocket.t N) : Rocket.t N :=
  if rocketLands r then Rocket.with_id (-1) (rocketMoved r) else rocketMoved r.

Lemma rocketStep_rockets k r (w : World N) :
  rocketsRef (rocketStep k r w) = writeAt k (rocketAfter r) (rocketsRef w).
Proof.
  unfold rocketStep, rocketAfter, rocketLands, rocketMoved. simpl.
  destruct (nleb _ _); reflexivity.
Qed.

Lemma forEach_rocketStep_rockets (w : World N) :
  rocketsRef (forEach (@rocketsRef N) rocketStep w) = map rocketAfter (rocketsRef w).
Proof. apply forEach_map. intros; apply rocketStep_rockets. Qed.

Lemma updateRockets_rockets (w : World N) :
  rocketsRef (updateRockets w) = filter rocketAlive (map rocketAfter (rocketsRef w)).
Proof. unfold updateRockets. simpl. now rewrite forEach_rocketStep_rockets. Qed.

(** *** Missiles (step 3) *)

Definition missileMoved (m : Missile.t N) : Missile.t N :=
  Missile.with_current
    (advance (Missile.start m) (Missile.current m) (Missile.target m) (Missile.speed m)) m.

(** The test of line 243, on the position the missile has just taken. *)
Definition missileImpacts (m : Missile.t N) : bool :=
  getDistance (Missile.current (missileMoved m)) (Missile.target m) <? Missile.speed m.

Definition missileAfter (m : Missile.t N) : Missile.t N :=
  if missileImpacts m then Missile.with_id (-1) (missileMoved m) else missileMoved m.

Lemma missileStep_missiles k m (w : World N) :
  missilesRef (missileStep k m w) = writeAt k (missileAfter m) (missilesRef w).
Proof.
  unfold missileStep, missileAfter, missileImpacts, missileMoved. simpl.
  destruct (nltb _ _); reflexivity.
Qed.

Lemma forEach_missileStep_missiles (w : World N) :
  missilesRef (forEach (@missilesRef N) missileStep w) = map missileAfter (missilesRef w).
Proof. apply forEach_map. intros; apply missileStep_missiles. Qed.

End Steps.

Lemma nth_error_writeAt_same {A} (k : nat) (a : A) (l : list A) :
  nth_error l k = Some a -> writeAt k a l = l.
Proof.
  revert k; induction l as [|b l IH]; intros [|k] E; simpl in *; try discriminate.
  - now inversion E.
  - now rewrite IH.
Qed.

Section ExplosionSteps.
Context {N : Type} `{Number N}.
Local Open Scope num_scope.

(** The explosion a missile leaves at its target, and the next id. *)
Definition blast (m : Missile.t N) (st : list (Explosion.t N) * Z)
  : list (Explosion.t N) * Z :=
  if missileImpacts m
  then (fst st ++ [newExplosion (snd st) (Missile.target m) 80], (snd st + 1)%Z)
  else st.

Lemma missileStep_view k m (w : World N) :
  (explosionsRef (missileStep k m w), nextIdRef (missileStep k m w))
  = blast m (explosionsRef w, nextIdRef w).
Proof.
  unfold missileStep, blast, missileImpacts, missileMoved. simpl.
  destruct (nltb _ _); reflexivity.
Qed.

Lemma forEach_missileStep_view (w : World N) :
  (explosionsRef (forEach (@missilesRef N) missileStep w),
   nextIdRef (forEach (@missilesRef N) missileStep w))
  = fold_left (fun st m => blast m st) (missilesRef w) (explosionsRef w, nextIdRef w).
Proof.
  apply (forEach_fold (@missilesRef N) missileStep missileAfter
           (fun s => (explosionsRef s, nextIdRef s)) blast).
  - intros k a s _. exists []. rewrite app_nil_r. apply missileStep_missiles.
  - intros k a s _. apply missileStep_view.
Qed.

(** The shape of an explosion as it is created. *)
Definition fresh (maxR : Q) (e : Explosion.t N) : Prop :=
  Explosion.radius e = lit 0 /\ Explosion.maxRadius e = lit maxR /\
  Explosion.growing e = true /\ Explosion.done e = false.

Lemma fold_blast (ms : list (Missile.t N)) : forall ex i,
  exists blasts,
    fst (fold_left (fun st m => blast m st) ms (ex, i)) = ex ++ blasts
    /\ map (@Explosion.pos N) blasts = map (@Missile.target N) (filter missileImpacts ms)
    /\ Forall (fresh 80) blasts.
Proof.
  induction ms as [|m ms IH]; intros ex i; simpl.
  - exists []. rewrite app_nil_r. repeat split; constructor.
  - unfold blast at 2. destruct (missileImpacts m); simpl.
    + destruct (IH (ex ++ [newExplosion i (Missile.target m) 80]) (i + 1)%Z)
        as (bs & H1 & H2 & H3).
      exists (newExplosion i (Missile.target m) 80 :: bs).
      rewrite H1, <- app_assoc. simpl. rewrite H2. repeat split; auto.
      constructor; [|exact H3]. repeat split.
    + apply IH.
Qed.

(** *** Explosions (step 4) *)

(** The test of line 269. *)
Definition caught (e : Explosion.t N) (r : Rocket.t N) : bool :=
  getDistance (Explosion.pos e) (Rocket.current r) <? Explosion.radius e.

Definition markIfCaught (e : Explosion.t N) (r : Rocket.t N) : Rocket.t N :=
  if caught e r then Rocket.with_id (-1) r else r.

(** Explosions, next id and score after one inner call. *)
Definition award (e : Explosion.t N) (r : Rocket.t N)
    (st : list (Explosion.t N) * Z * Z) : list (Explosion.t N) * Z * Z :=
  let '(ex, i, sc) := st in
  if caught e r
  then (ex ++ [newExplosion i (Rocket.current r) 30], (i + 1)%Z, (sc + ROCKET_SCORE)%Z)
  else st.

Lemma collide_rockets e j r (w : World N) :
  nth_error (rocketsRef w) j = Some r ->
  rocketsRef (collide e j r w) = writeAt j (markIfCaught e r) (rocketsRef w).
Proof.
  intros Hn. unfold collide, markIfCaught, caught.
  destruct (nltb _ _); simpl; [reflexivity|].
  now rewrite nth_error_writeAt_same.
Qed.

Lemma collide_view e j r (w : World N) :
  (explosionsRef (collide e j r w), nextIdRef (collide e j r w), score (collide e j r w))
  = award e r (explosionsRef w, nextIdRef w, score w).
Proof.
  unfold collide, award, caught. destruct (nltb _ _); reflexivity.
Qed.

Lemma forEach_collide_rockets e (w : World N) :
  rocketsRef (forEach (@rocketsRef N) (collide e) w) = map (markIfCaught e) (rocketsRef w).
Proof. apply forEach_map. intros; now apply collide_rockets. Qed.

Lemma forEach_collide_view e (w : World N) :
  (explosionsRef (forEach (@rocketsRef N) (collide e) w),
   nextIdRef (forEach (@rocketsRef N) (collide e) w),
   score (forEach (@rocketsRef N) (collide e) w))
  = fold_left (fun st r => award e r st) (rocketsRef w)
              (explosionsRef w, nextIdRef w, score w).
Proof.
  apply (forEach_fold (@rocketsRef N) (collide e) (markIfCaught e)
           (fun s => (explosionsRef s, nextIdRef s, score s)) (award e)).
  - intros k a s Hn. exists []. rewrite app_nil_r. now apply collide_rockets.
  - intros k a s _. apply collide_view.
Qed.

(** One explosion awards [ROCKET_SCORE] for each rocket it catches and
    appends one chain explosion at that rocket's position. *)
Lemma fold_award e (rs : list (Rocket.t N)) : forall ex i sc,
  exists chain,
    fold_left (fun st r => award e r st) rs (ex, i, sc)
    = (ex ++ chain, (i + Z.of_nat (List.length chain))%Z,
       (sc + ROCKET_SCORE * Z.of_nat (List.length chain))%Z)
    /\ map (@Explosion.pos N) chain = map (@Rocket.current N) (filter (caught e) rs)
    /\ Forall (fresh 30) chain.
Proof.
  induction rs as [|r rs IH]; intros ex i sc; cbn [fold_left filter].
  - exists []. cbn [List.length map]. rewrite app_nil_r.
    repeat split; try constructor. f_equal; [f_equal|]; lia.
  - unfold award at 2. destruct (caught e r); cbn [map].
    + destruct (IH (ex ++ [newExplosion i (Rocket.current r) 30]) (i + 1)%Z
                   (sc + ROCKET_SCORE)%Z) as (ch & H1 & H2 & H3).
      exists (newExplosion i (Rocket.current r) 30 :: ch).
      rewrite H1, <- app_assoc. cbn [app List.length map filter].
      rewrite Nat2Z.inj_succ, H2. repeat split; auto.
      * f_equal; [f_equal|]; lia.
      * constructor; [|exact H3]. repeat split.
    + apply IH.
Qed.

End ExplosionSteps.

Section ExplosionPass.
Context {N : Type} `{Number N}.

(** Rockets and score after the call of the outer callback for [e]. *)
Definition sweep (e : Explosion.t N) (st : list (Rocket.t N) * Z)
  : list (Rocket.t N) * Z :=
  (map (markIfCaught (animate e)) (fst st),
   (snd st + ROCKET_SCORE * Z.of_nat (List.length (filter (caught (animate e)) (fst st))))%Z).

Lemma explosionStep_inner k e (w : World N) :
  exists chain,
    explosionsRef (explosionStep k e w)
      = writeAt k (animate e) (explosionsRef w) ++ chain
    /\ score (explosionStep k e w)
      = (score w + ROCKET_SCORE * Z.of_nat (List.length chain))%Z
    /\ map (@Explosion.pos N) chain
      = map (@Rocket.current N) (filter (caught (animate e)) (rocketsRef w))
    /\ Forall (fresh 30) chain.
Proof.
  unfold explosionStep.
  set (w1 := set_explosions (writeAt k (animate e) (explosionsRef w)) w).
  pose proof (forEach_collide_view (animate e) w1) as Hv.
  destruct (fold_award (animate e) (rocketsRef w1) (explosionsRef w1)
                       (nextIdRef w1) (score w1)) as (chain & Hf & Hpos & Hfresh).
  rewrite Hf in Hv. inversion Hv as [[He Hi Hs]].
  exists chain. repeat split; auto.
Qed.

Lemma explosionStep_explosions k e (w : World N) :
  nth_error (explosionsRef w) k = Some e ->
  exists p, explosionsRef (explosionStep k e w)
            = writeAt k (animate e) (explosionsRef w) ++ p
            /\ Forall (fresh 30) p.
Proof.
  intros _. destruct (explosionStep_inner k e w) as (chain & H1 & _ & _ & H4).
  exists chain; auto.
Qed.

Lemma explosionStep_view k e (w : World N) :
  (rocketsRef (explosionStep k e w), score (explosionStep k e w))
  = sweep e (rocketsRef w, score w).
Proof.
  destruct (explosionStep_inner k e w) as (chain & _ & H2 & H3 & _).
  unfold sweep. cbn [fst snd]. rewrite H2. f_equal.
  - unfold explosionStep. now rewrite forEach_collide_rockets.
  - now rewrite <- (length_map (@Rocket.current N)), <- H3, length_map.
Qed.

(** The whole pass: every explosion the array held when the pass began
    is animated once, the rockets are tested against exactly those,
    and the explosions created on the way are behind them, as created. *)
Lemma forEach_explosionStep (w : World N) :
  exists chain,
    explosionsRef (forEach (@explosionsRef N) explosionStep w)
      = map animate (explosionsRef w) ++ chain
    /\ Forall (fresh 30) chain
    /\ (rocketsRef (forEach (@explosionsRef N) explosionStep w),
        score (forEach (@explosionsRef N) explosionStep w))
       = fold_left (fun st e => sweep e st) (explosionsRef w) (rocketsRef w, score w).
Proof.
  apply (@forEach_spec _ _ (@explosionsRef N) explosionStep animate (fresh 30) _
           (fun s => (rocketsRef s, score s)) sweep).
  - intros k a s. apply explosionStep_explosions.
  - intros k a s _. apply explosionStep_view.
Qed.

Lemma filter_alive_fresh (chain : list (Explosion.t N)) :
  Forall (fresh 30) chain -> filter explosionAlive chain = chain.
Proof.
  induction 1 as [|e l (_ & _ & _ & Hd) _ IH]; simpl; [reflexivity|].
  unfold explosionAlive at 1. now rewrite Hd, IH.
Qed.


(** Every award goes with one appended explosion. *)
Lemma forEach_explosionStep_score (w : World N) :
  (score (forEach (@explosionsRef N) explosionStep w)
   - ROCKET_SCORE
     * Z.of_nat (List.length (explosionsRef (forEach (@explosionsRef N) explosionStep w)))
   = score w - ROCKET_SCORE * Z.of_nat (List.length (explosionsRef w)))%Z.
Proof.
  apply (forEach_preserves (@explosionsRef N) explosionStep
           (fun s => (score s - ROCKET_SCORE * Z.of_nat (List.length (explosionsRef s))
                      = score w - ROCKET_SCORE * Z.of_nat (List.length (explosionsRef w)))%Z));
    [|reflexivity].
  intros k e s _ Hs.
  destruct (explosionStep_inner k e s) as (ch & E1 & E2 & _ & _).
  rewrite E1, E2, length_app, writeAt_length, Nat2Z.inj_add. lia.
Qed.

Lemma updateExplosions_score (w : World N) :
  exists n : nat, score (updateExplosions w) = (score w + ROCKET_SCORE * Z.of_nat n)%Z.
Proof.
  destruct (forEach_explosionStep w) as (chain & H1 & _ & _).
  pose proof (forEach_explosionStep_score w) as Hinv.
  rewrite H1, length_app, length_map, Nat2Z.inj_add in Hinv.
  exists (List.length chain). unfold updateExplosions. cbn [score set_explosions]. lia.
Qed.

End ExplosionPass.

(** ** The life of one explosion *)


(** The number of the pass that sets [done] (at the end of that pass
    the explosion is filtered out), searched among the first [fuel]. *)
Fixpoint passesUntilDone {N : Type} `{Number N} (fuel : nat) (e : Explosion.t N)
  : option nat :=
  match fuel with
  | O => None
  | S fuel' =>
      let e' := animate e in
      if Explosion.done e' then Some 1%nat
      else option_map S (passesUntilDone fuel' e')
  end.

(** The passes in which the radius grows, the radius then reached, and
    the passes in which it shrinks. *)
Definition growthPasses (maxR : Q) : nat := Z.to_nat (Qceiling (maxR / 1.5)).
Definition peakRadius (maxR : Q) : Q := (1.5 * inject_Z (Z.of_nat (growthPasses maxR)))%Q.
Definition shrinkPasses (maxR : Q) : nat := Z.to_nat (Qceiling (peakRadius maxR / 0.8)).

(** The lifetime in the words of the specification:
    ceil(maxRadius/1.5) + ceil(maxRadius/0.8). *)
Definition specLifetime (maxR : Q) : Z :=
  (Qceiling (maxR / 1.5) + Qceiling (maxR / 0.8))%Z.

(** ** What each sub-step leaves alone *)

Section Frames.
Context {N : Type} `{Number N}.

Lemma damageTurret_ammo (p : Point.t N) (ts : list (Turret.t N)) :
  map (@Turret.ammo N) (map (damageTurret p) ts) = map (@Turret.ammo N) ts.
Proof.
  rewrite map_map. apply map_ext. intros t. unfold damageTurret.
  destruct (_ && _); reflexivity.
Qed.

Definition rocketsFrame (w0 w : World N) : Prop :=
  missilesRef w = missilesRef w0 /\ score w = score w0 /\
  gameState w = gameState w0 /\ lastSpawnTimeRef w = lastSpawnTimeRef w0 /\
  map (@Turret.ammo N) (turretsRef w) = map (@Turret.ammo N) (turretsRef w0).

Lemma updateRockets_frame (w : World N) : rocketsFrame w (updateRockets w).
Proof.
  unfold updateRockets.
  assert (Hloop : rocketsFrame w (forEach (@rocketsRef N) rocketStep w)).
  { apply forEach_preserves; [|repeat split].
    intros k r s _ (H1 & H2 & H3 & H4 & H5). unfold rocketStep.
    destruct (nleb _ _); repeat split; cbn; auto.
    now rewrite damageTurret_ammo. }
  destruct Hloop as (H1 & H2 & H3 & H4 & H5). repeat split; cbn; auto.
Qed.

Definition missilesFrame (w0 w : World N) : Prop :=
  rocketsRef w = rocketsRef w0 /\ citiesRef w = citiesRef w0 /\
  turretsRef w = turretsRef w0 /\ score w = score w0 /\
  gameState w = gameState w0 /\ lastSpawnTimeRef w = lastSpawnTimeRef w0.

Lemma updateMissiles_frame (w : World N) : missilesFrame w (updateMissiles w).
Proof.
  unfold updateMissiles.
  assert (Hloop : missilesFrame w (forEach (@missilesRef N) missileStep w)).
  { apply forEach_preserves; [|repeat split].
    intros k r s _ (H1 & H2 & H3 & H4 & H5 & H6). unfold missileStep.
    destruct (nltb _ _); repeat split; cbn; auto. }
  destruct Hloop as (H1 & H2 & H3 & H4 & H5 & H6). repeat split; cbn; auto.
Qed.

Definition explosionsFrame (w0 w : World N) : Prop :=
  missilesRef w = missilesRef w0 /\ citiesRef w = citiesRef w0 /\
  turretsRef w = turretsRef w0 /\ gameState w = gameState w0 /\
  lastSpawnTimeRef w = lastSpawnTimeRef w0.

Lemma updateExplosions_frame (w : World N) : explosionsFrame w (updateExplosions w).
Proof.
  unfold updateExplosions.
  assert (Hloop : explosionsFrame w (forEach (@explosionsRef N) explosionStep w)).
  { apply forEach_preserves; [|repeat split].
    intros k e s _ Hs. unfold explosionStep.
    apply forEach_preserves.
    - intros j r s' _ (H1 & H2 & H3 & H4 & H5). unfold collide.
      destruct (nltb _ _); repeat split; cbn; auto.
    - destruct Hs as (H1 & H2 & H3 & H4 & H5). repeat split; cbn; auto. }
  destruct Hloop as (H1 & H2 & H3 & H4 & H5). repeat split; cbn; auto.
Qed.

Lemma spawnRockets_frame env cv sc (w w1 : World N) :
  spawnRockets env cv sc w = Some w1 ->
  missilesRef w1 = missilesRef w /\ explosionsRef w1 = explosionsRef w /\
  citiesRef w1 = citiesRef w /\ turretsRef w1 = turretsRef w /\
  score w1 = score w /\ gameState w1 = gameState w.
Proof.
  unfold spawnRockets. intros E.
  destruct (nltb _ _); [|inversion E; subst; repeat split].
  destruct (Nat.ltb _ _); [|inversion E; subst; repeat split].
  destruct (nth_error _ _); [|discriminate].
  inversion E; subst; repeat split.
Qed.

Lemma checkWinLoss_gameState sc (w : World N) :
  gameState (checkWinLoss sc w)
  = if allTurretsDown w then LOST
    else if (sc >=? WIN_SCORE)%Z then WON else gameState w.
Proof.
  unfold checkWinLoss.
  destruct (sc >=? WIN_SCORE)%Z;
    (destruct (allTurretsDown w) eqn:E;
     [ replace (allTurretsDown (setGameState WON w)) with (allTurretsDown w) by reflexivity
     | replace (allTurretsDown (setGameState WON w)) with (allTurretsDown w) by reflexivity ];
     rewrite ?E; reflexivity).
Qed.

Lemma checkWinLoss_frame sc (w : World N) :
  rocketsRef (checkWinLoss sc w) = rocketsRef w /\
  missilesRef (checkWinLoss sc w) = missilesRef w /\
  explosionsRef (checkWinLoss sc w) = explosionsRef w /\
  citiesRef (checkWinLoss sc w) = citiesRef w /\
  turretsRef (checkWinLoss sc w) = turretsRef w /\
  score (checkWinLoss sc w) = score w.
Proof.
  unfold checkWinLoss.
  destruct (sc >=? WIN_SCORE)%Z; destruct (allTurretsDown _); repeat split.
Qed.

End Frames.

(** ** The frame as a whole *)

Section Frame.
Context {N : Type} `{Number N}.


Lemma update_idle env (w : World N) :
  gameState w <> PLAYING \/ canvas env = None -> update env w = Some w.
Proof.
  unfold update. intros [Hg|Hc].
  - destruct (gameState w); try reflexivity. now elim Hg.
  - rewrite Hc. now destruct (negb _).
Qed.

Lemma missiles_alive_after (ms : list (Missile.t N)) :
  Forall (fun m => missileAlive m = true) ms ->
  filter missileAlive (map missileAfter ms)
  = map missileMoved (filter (fun m => negb (missileImpacts m)) ms).
Proof.
  induction 1 as [|m ms Hm _ IH]; [reflexivity|].
  cbn [map filter]. destruct (missileImpacts m) eqn:E; cbn [negb].
  - assert (HA : missileAfter m = Missile.with_id (-1) (missileMoved m))
      by (unfold missileAfter; now rewrite E).
    rewrite HA. replace (missileAlive (Missile.with_id (-1) (missileMoved m)))
      with false by reflexivity.
    exact IH.
  - assert (HA : missileAfter m = missileMoved m)
      by (unfold missileAfter; now rewrite E).
    rewrite HA. replace (missileAlive (missileMoved m)) with (missileAlive m)
      by reflexivity.
    rewrite Hm. cbn [map]. f_equal. exact IH.
Qed.

End Frame.

(** ** Properties of the specification *)

(** C10. A chain explosion created during the explosion pass of a frame
    is not visited by that pass: the explosions after the pass are the
    ones the pass started with, each animated once (those that are done
    removed), followed by the chain explosions exactly as created
    (radius 0, growing, not done, maximal radius 30); the rockets were
    tested against the explosions the pass started with and against no
    other.  A chain explosion is animated and tested for the first time
    by the pass of the next frame, where it is among the initial ones. *)
Theorem chain_explosion_deferred {N : Type} `{Number N} (w : World N) :
  exists chain,
    explosionsRef (updateExplosions w)
      = filter explosionAlive (map animate (explosionsRef w)) ++ chain
    /\ Forall (fun e => Explosion.radius e = lit 0 /\ Explosion.growing e = true /\
                        Explosion.done e = false /\ Explosion.maxRadius e = lit 30) chain
    /\ rocketsRef (updateExplosions w)
       = fold_left (fun rs e => map (markIfCaught (animate e)) rs)
                   (explosionsRef w) (rocketsRef w)
    /\ score (updateExplosions w)
       = (score w + ROCKET_SCORE * Z.of_nat (List.length chain))%Z.
Proof.
  destruct (forEach_explosionStep w) as (chain & H1 & H2 & H3).
  exists chain. unfold updateExplosions.
  cbn [explosionsRef rocketsRef score set_explosions].
  rewrite H1, filter_app, (filter_alive_fresh H2).
  split; [reflexivity|]. split.
  { eapply Forall_impl; [|exact H2]. intros e (Ha & Hb & Hc & Hd). auto. }
  assert (Hgen : forall es rs sc,
             fst (fold_left (fun st e => sweep e st) es (rs, sc))
             = fold_left (fun rs e => map (markIfCaught (animate e)) rs) es rs).
  { induction es as [|e es IH]; intros rs sc; [reflexivity|]. cbn [fold_left].
    unfold sweep at 2. cbn [fst snd]. apply IH. }
  split.
  - rewrite <- (Hgen _ _ (score w)), <- H3. reflexivity.
  - pose proof (forEach_explosionStep_score w) as Hinv.
    rewrite H1, length_app, length_map, Nat2Z.inj_add in Hinv. lia.
Qed.


(** *** Concrete worlds, in binary64 *)

Module Scenario.
Local Open Scope float_scope.
#[local] Set Warnings "-inexact-float".

Definition pt (a b : float) : Point.t float := Point.mk a b.

Definition canvas600 : Canvas float := mkCanvas 1000 600.

(** A frame 16 ms after the last spawn: the spawner stays idle. *)
Definition quietFrame : TickEnv float := mkTickEnv 16 (Some canvas600) 0.5 0.

(** Two missiles of the left turret: the first is 4 units short of its
    target, the second has just been fired. *)
Definition twoMissiles : World float :=
  mkWorld []
          [Missile.mk 3 (pt 100 550) (pt 100 304) (pt 100 300) 6 0;
           Missile.mk 4 (pt 100 550) (pt 100 550) (pt 400 150) 6 0]
          [] []
          [Turret.mk 1 100 18 20 true]
          5 0 0 PLAYING.


(** One rocket inside the radius of two explosions. *)
Definition overlap : World float :=
  mkWorld [Rocket.mk 7 (pt 100 0) (pt 100 100) (pt 100 580) 0.8 "#ef4444"]
          []
          [Explosion.mk 3 (pt 100 100) 10 30 true false;
           Explosion.mk 4 (pt 100 101) 10 30 true false]
          []
          [Turret.mk 1 100 20 20 true]
          8 0 0 PLAYING.

(** A rocket 1.5 above the ground over the only turret, inside an
    explosion. *)
Definition lowRocket : World float :=
  mkWorld [Rocket.mk 7 (pt 100 0) (pt 100 578.5) (pt 100 580) 0.8 "#ef4444"]
          []
          [Explosion.mk 3 (pt 100 570) 10 80 true false]
          []
          [Turret.mk 1 100 20 20 true]
          8 0 0 PLAYING.

(** A match just started on a 1000 x 600 canvas, and a click at (400, 300). *)
Definition freshMatch : World float :=
  initGame (mkInitEnv 1000 600 0) initialWorld.

Definition clickAt (px py : float) : ClickEnv float :=
  mkClickEnv (Some canvas600) px py 0 0.

End Scenario.

(** C9. In the missile sub-step, a missile impacts exactly when the
    distance from the position it has just taken to its target is below
    its speed ([missileImpacts]): the missiles that remain are the
    others, moved, in order; and for each impacting missile, in order, an
    explosion of maximal radius 80 (radius 0, growing) is appended at the
    target of the missile.  Missiles carry ids handed out by the id
    counter, never the removal mark -1 ([reachable_missiles_alive]). *)
Theorem missile_impact {N : Type} `{Number N} (w : World N) :
  Forall (fun m => missileAlive m = true) (missilesRef w) ->
  missilesRef (updateMissiles w)
    = map missileMoved (filter (fun m => negb (missileImpacts m)) (missilesRef w))
  /\ exists blasts,
       explosionsRef (updateMissiles w) = explosionsRef w ++ blasts
       /\ map (@Explosion.pos N) blasts
          = map (@Missile.target N) (filter missileImpacts (missilesRef w))
       /\ Forall (fun e => Explosion.maxRadius e = lit 80 /\ Explosion.radius e = lit 0 /\
                           Explosion.growing e = true /\ Explosion.done e = false) blasts.
Proof.
  intros Hids. split.
  - unfold updateMissiles. cbn [missilesRef set_missiles].
    rewrite forEach_missileStep_missiles. now apply missiles_alive_after.
  - destruct (fold_blast (missilesRef w) (explosionsRef w) (nextIdRef w))
      as (blasts & H1 & H2 & H3).
    exists blasts. unfold updateMissiles. cbn [explosionsRef set_missiles].
    pose proof (forEach_missileStep_view w) as Hv.
    apply (f_equal fst) in Hv. cbn [fst] in Hv. rewrite Hv, H1.
    repeat split; auto.
    eapply Forall_impl; [|exact H3]. intros e (Ha & Hb & Hc & Hd). auto.
Qed.

(** The sub-step on two missiles, one of which arrives. *)
Lemma missile_impact_witness :
  Forall (fun m => missileAlive m = true) (missilesRef Scenario.twoMissiles)
  /\ missilesRef (updateMissiles Scenario.twoMissiles)
     = map missileMoved (filter (fun m => negb (missileImpacts m))
                                (missilesRef Scenario.twoMissiles))
  /\ List.length (missilesRef (updateMissiles Scenario.twoMissiles)) = 1%nat
  /\ map (@Explosion.pos float) (explosionsRef (updateMissiles Scenario.twoMissiles))
     = [Scenario.pt 100 300].
Proof.
  assert (Hids : Forall (fun m => missileAlive m = true)
                        (missilesRef Scenario.twoMissiles))
    by (repeat constructor).
  split; [exact Hids|].
  split; [exact (proj1 (missile_impact Scenario.twoMissiles Hids))|].
  split; vm_compute; reflexivity.
Defined.




(** ** The input router *)

Lemma closestTurret_some {N : Type} `{Number N} (x : N) (ts : list (Turret.t N)) :
  forall k0 best md k,
    closestTurret x ts k0 best md = Some k ->
    best = Some k
    \/ exists t, (k0 <= k)%nat /\ nth_error ts (k - k0) = Some t
                 /\ Turret.active t = true /\ (0 < Turret.ammo t)%Z.
Proof.
  induction ts as [|t ts IH]; intros k0 best md k E; cbn [closestTurret] in E.
  - now left.
  - assert (Hrec : forall b m, closestTurret x ts (S k0) b m = Some k ->
                     b = Some k
                     \/ exists t', (k0 <= k)%nat /\ nth_error (t :: ts) (k - k0) = Some t'
                                   /\ Turret.active t' = true /\ (0 < Turret.ammo t')%Z).
    { intros b m Eb. destruct (IH _ _ _ _ Eb) as [Hb|(t' & Hk & Hn & Ha & Hm)]; [now left|].
      right. exists t'. repeat split; auto; [lia|].
      replace (k - k0)%nat with (S (k - S k0)) by lia. exact Hn. }
    destruct (Turret.active t && (Turret.ammo t >? 0)%Z) eqn:El.
    + apply andb_prop in El. destruct El as (Ha & Hm). apply Z.gtb_lt in Hm.
      destruct (nltb _ _).
      * destruct (Hrec _ _ E) as [Hb|Hex]; [|now right].
        inversion Hb; subst. right. exists t.
        rewrite Nat.sub_diag. repeat split; auto.
      * apply (Hrec _ _ E).
    + apply (Hrec _ _ E).
Qed.

(** C6, as the code has it.  When the selection loop of a click finds a
    turret (index [k]), that turret is active and has ammo, and exactly
    one missile is appended: it starts, and currently is, at
    (turret.x, canvas height - 50), targets the clicked point
    (clientX - rect.left, clientY - rect.top) and has speed 6.  With the
    ground at height - 20 the start is 30 above the ground (the apex of
    the drawn turret), not 50. *)
Theorem missile_launch {N : Type} `{Number N}
        (e : ClickEnv N) (cv : Canvas N) (w : World N) (k : nat) :
  gameState w = PLAYING ->
  click_canvas e = Some cv ->
  closestTurret (clientX e - rect_left e)%num (turretsRef w) 0 None inf = Some k ->
  exists t,
    nth_error (turretsRef w) k = Some t
    /\ Turret.active t = true /\ (0 < Turret.ammo t)%Z
    /\ missilesRef (handleCanvasClick e w)
       = missilesRef w ++
         [Missile.mk (nextIdRef w)
                     (Point.mk (Turret.x t) (height cv - lit 50)%num)
                     (Point.mk (Turret.x t) (height cv - lit 50)%num)
                     (Point.mk (clientX e - rect_left e)%num
                               (clientY e - rect_top e)%num)
                     (lit 6) (Z.of_nat k)].
Proof.
  intros Hg Hc Hsel.
  destruct (closestTurret_some _ _ _ _ _ Hsel) as [Hb|(t & _ & Hn & Ha & Hm)];
    [discriminate|].
  rewrite Nat.sub_0_r in Hn.
  exists t. repeat split; auto.
  unfold handleCanvasClick. rewrite Hg, Hc. cbn [GameState_eqb negb].
  rewrite Hsel, Hn. reflexivity.
Qed.

(** A click at (400, 300) in a fresh match fires the middle turret. *)
Lemma missile_launch_witness :
  exists t,
    nth_error (turretsRef Scenario.freshMatch) 1 = Some t
    /\ missilesRef (handleCanvasClick (Scenario.clickAt 400 300) Scenario.freshMatch)
       = [Missile.mk 0 (Point.mk (Turret.x t) 550%float) (Point.mk (Turret.x t) 550%float)
                     (Point.mk 400%float 300%float) 6%float 1].
Proof.
  destruct (@missile_launch _ _ (Scenario.clickAt 400 300) Scenario.canvas600
              Scenario.freshMatch 1 eq_refl eq_refl)
    as (t & Hn & _ & _ & Hm).
  - vm_compute. reflexivity.
  - exists t. split; [exact Hn|]. rewrite Hm. vm_compute in Hn.
    injection Hn as <-. vm_compute. reflexivity.
Defined.

(** C6, counterexample.  On a canvas of height 600 (ground at 580) a
    click at (400, 300) fires from the middle turret; the missile starts
    at y = 550 = height - 50, which is not groundY - 50 = height - 70 = 530. *)
Lemma missile_does_not_start_at_ground_minus_50 :
  exists m,
    missilesRef (handleCanvasClick (Scenario.clickAt 400 300) Scenario.freshMatch) = [m]
    /\ Point.y (Missile.start m) = 550%float
    /\ Point.y (Missile.start m) <> (height Scenario.canvas600 - lit 20 - lit 50)%num
    /\ (height Scenario.canvas600 - lit 20 - lit 50)%num = 530%float.
Proof.
  eexists. split; [vm_compute; reflexivity|].
  cbn [Missile.start Point.y]. split; [reflexivity|]. split.
  - intros Heq. apply (f_equal (fun v => PrimFloat.eqb v 550%float)) in Heq.
    vm_compute in Heq. discriminate.
  - vm_compute. reflexivity.
Qed.

(** ** Ammunition *)

Section Ammo.
Context {N : Type} `{Number N}.

Definition ammoOf (w : World N) : list Z := map (@Turret.ammo N) (turretsRef w).

Lemma initGame_ammo (e : InitEnv N) (w : World N) :
  ammoOf (initGame e w) = TURRET_AMMO.
Proof. reflexivity. Qed.

Lemma update_ammo (env : TickEnv N) (w w' : World N) :
  update env w = Some w' -> ammoOf w' = ammoOf w.
Proof.
  intros Hu. unfold update in Hu.
  destruct (negb (GameState_eqb (gameState w) PLAYING)); [now inversion Hu|].
  destruct (canvas env) as [cv|]; [|now inversion Hu].
  destruct (spawnRockets env cv (score w) w) as [w1|] eqn:Hs; [|discriminate].
  inversion Hu; subst w'; clear Hu. unfold ammoOf.
  destruct (checkWinLoss_frame (score w)
              (updateExplosions (updateMissiles (updateRockets w1))))
    as (_ & _ & _ & _ & -> & _).
  destruct (updateExplosions_frame (updateMissiles (updateRockets w1)))
    as (_ & _ & -> & _).
  destruct (updateMissiles_frame (updateRockets w1)) as (_ & _ & -> & _).
  destruct (updateRockets_frame w1) as (_ & _ & _ & _ & ->).
  destruct (spawnRockets_frame _ _ _ _ Hs) as (_ & _ & _ & -> & _).
  reflexivity.
Qed.

Lemma click_turrets (e : ClickEnv N) (w : World N) :
  turretsRef (handleCanvasClick e w) = turretsRef w
  \/ fires (turretsRef w) (turretsRef (handleCanvasClick e w)).
Proof.
  unfold handleCanvasClick.
  destruct (negb (GameState_eqb (gameState w) PLAYING)); [now left|].
  destruct (click_canvas e) as [cv|]; [|now left].
  destruct (closestTurret _ _ _ _ _) as [k|] eqn:Hsel; [|now left].
  destruct (closestTurret_some _ _ _ _ _ Hsel) as [Hb|(t & _ & Hn & Ha & Hm)];
    [discriminate|].
  rewrite Nat.sub_0_r in Hn. rewrite Hn.
  right. exists k, t. repeat split; auto.
Qed.

Lemma map_writeAt {A B} (f : A -> B) (k : nat) (a : A) (l : list A) :
  map f (writeAt k a l) = writeAt k (f a) (map f l).
Proof.
  revert k; induction l as [|b l IH]; intros [|k]; simpl; auto.
  now rewrite IH.
Qed.

Lemma Forall_writeAt {A} (P : A -> Prop) (k : nat) (a : A) (l : list A) :
  Forall P l -> P a -> Forall P (writeAt k a l).
Proof.
  intros Hl Ha. revert k. induction Hl as [|b l Hb Hl IH]; intros [|k]; simpl;
    constructor; auto.
Qed.

Lemma fires_nonneg (ts ts' : list (Turret.t N)) :
  fires ts ts' ->
  Forall (fun a => 0 <= a)%Z (map (@Turret.ammo N) ts) ->
  Forall (fun a => 0 <= a)%Z (map (@Turret.ammo N) ts').
Proof.
  intros (k & t & Hn & Ha & Hm & ->) Hts.
  rewrite map_writeAt. apply Forall_writeAt; [exact Hts|]. cbn. lia.
Qed.

Lemma reachable_ammo_nonneg (w : World N) :
  Reachable w -> Forall (fun a => 0 <= a)%Z (ammoOf w).
Proof.
  induction 1 as [|e w _ _|env w w' _ IH Hu|e w _ IH].
  - constructor.
  - rewrite initGame_ammo. unfold TURRET_AMMO. repeat constructor; lia.
  - now rewrite (@update_ammo env w w' Hu).
  - destruct (click_turrets e w) as [Heq|Hf].
    + unfold ammoOf. now rewrite Heq.
    + exact (fires_nonneg Hf IH).
Qed.

Lemma Forall2_le_writeAt (l m : list Z) (k : nat) (a a' : Z) :
  Forall2 Z.le l m -> nth_error l k = Some a -> (a' <= a)%Z ->
  Forall2 Z.le (writeAt k a' l) m.
Proof.
  intros Hlm. revert k. induction Hlm as [|x y l m Hxy Hlm IH]; intros [|k] Hn Hle;
    cbn in *; try discriminate.
  - inversion Hn; subst. constructor; [lia|exact Hlm].
  - constructor; [exact Hxy|]. now apply IH.
Qed.

(** No turret ever has more ammo than it was created with, so starting
    a match anew lowers no ammo either. *)
Lemma reachable_ammo_bounded (w : World N) :
  Reachable w -> turretsRef w = [] \/ Forall2 Z.le (ammoOf w) TURRET_AMMO.
Proof.
  induction 1 as [|e w _ _|env w w' _ IH Hu|e w _ IH].
  - now left.
  - right. rewrite initGame_ammo. unfold TURRET_AMMO. repeat constructor; lia.
  - destruct IH as [IH|IH].
    + left. pose proof (@update_ammo env w w' Hu) as Ha. unfold ammoOf in Ha.
      rewrite IH in Ha. cbn in Ha. now destruct (turretsRef w').
    + right. now rewrite (@update_ammo env w w' Hu).
  - destruct (click_turrets e w) as [Heq|Hf].
    + unfold ammoOf. now rewrite Heq.
    + destruct Hf as (k & t & Hn & Ha & Hm & Heq). destruct IH as [IH|IH].
      * rewrite IH in Hn. destruct k; discriminate.
      * right. unfold ammoOf. rewrite Heq, map_writeAt.
        apply (@Forall2_le_writeAt _ _ k (Turret.ammo t)); [exact IH| |cbn; lia].
        unfold ammoOf. now rewrite nth_error_map, Hn.
Qed.

End Ammo.

(** C8. In every world a session can reach, no turret has negative
    ammo; a frame leaves the ammo of every turret as it is; a click
    either leaves the turrets as they are or lowers by exactly one the
    ammo of one turret that is active and has ammo left; and starting a
    match creates the turrets anew with 20, 40 and 20, which is not less
    than any turret had. *)
Theorem ammo_never_negative {N : Type} `{Number N} (w : World N) :
  Reachable w ->
  Forall (fun t => 0 <= Turret.ammo t)%Z (turretsRef w)
  /\ (forall env w', update env w = Some w' ->
        map (@Turret.ammo N) (turretsRef w') = map (@Turret.ammo N) (turretsRef w))
  /\ (forall e, turretsRef (handleCanvasClick e w) = turretsRef w
                \/ fires (turretsRef w) (turretsRef (handleCanvasClick e w)))
  /\ (forall e, map (@Turret.ammo N) (turretsRef (initGame e w)) = TURRET_AMMO
                /\ (turretsRef w = []
                    \/ Forall2 Z.le (map (@Turret.ammo N) (turretsRef w))
                                    (map (@Turret.ammo N) (turretsRef (initGame e w))))).
Proof.
  intros Hr. split; [|split; [|split]].
  - pose proof (reachable_ammo_nonneg Hr) as Ha. unfold ammoOf in Ha.
    rewrite Forall_map in Ha. exact Ha.
  - intros env w'. exact (@update_ammo _ _ env w w').
  - intros e. apply click_turrets.
  - intros e. split; [exact (initGame_ammo e w)|].
    destruct (reachable_ammo_bounded Hr) as [He|Hb]; [now left|right].
    change (Forall2 Z.le (ammoOf w) (ammoOf (initGame e w))).
    now rewrite initGame_ammo.
Qed.

(** A fresh match after one click. *)
Lemma ammo_never_negative_witness :
  Reachable (handleCanvasClick (Scenario.clickAt 400 300) Scenario.freshMatch)
  /\ map (@Turret.ammo float)
         (turretsRef (handleCanvasClick (Scenario.clickAt 400 300) Scenario.freshMatch))
     = [20; 39; 20]%Z
  /\ Forall (fun t => 0 <= Turret.ammo t)%Z
            (turretsRef (handleCanvasClick (Scenario.clickAt 400 300) Scenario.freshMatch)).
Proof.
  assert (Hr : Reachable (handleCanvasClick (Scenario.clickAt 400 300)
                                            Scenario.freshMatch)).
  { apply reach_click. apply reach_init. apply reach_mount. }
  split; [exact Hr|]. split; [vm_compute; reflexivity|].
  exact (proj1 (ammo_never_negative Hr)).
Defined.

(** ** Score *)

(** A frame never lowers the score: it adds [ROCKET_SCORE] once for
    every call of the inner callback of the explosion pass that finds
    its rocket inside the radius. *)
Lemma update_score {N : Type} `{Number N} (env : TickEnv N) (w w' : World N) :
  update env w = Some w' ->
  exists n : nat, score w' = (score w + ROCKET_SCORE * Z.of_nat n)%Z.
Proof.
  intros Hu. unfold update in Hu.
  destruct (negb (GameState_eqb (gameState w) PLAYING));
    [inversion Hu; exists 0%nat; lia|].
  destruct (canvas env) as [cv|]; [|inversion Hu; exists 0%nat; lia].
  destruct (spawnRockets env cv (score w) w) as [w1|] eqn:Hs; [|discriminate].
  inversion Hu; subst w'; clear Hu.
  destruct (checkWinLoss_frame (score w)
              (updateExplosions (updateMissiles (updateRockets w1))))
    as (_ & _ & _ & _ & _ & ->).
  destruct (updateExplosions_score (updateMissiles (updateRockets w1))) as (n & ->).
  destruct (updateMissiles_frame (updateRockets w1)) as (_ & _ & _ & -> & _).
  destruct (updateRockets_frame w1) as (_ & -> & _).
  destruct (spawnRockets_frame _ _ _ _ Hs) as (_ & _ & _ & _ & -> & _).
  now exists n.
Qed.

(** C1, the code at the failing input.  One rocket lies inside the
    radius of two explosions.  After the frame the score has grown by
    40, two chain explosions were created at the position of the rocket,
    and the only rocket there is carries the removal mark. *)
Theorem rocket_awarded_twice :
  exists w',
    update Scenario.quietFrame Scenario.overlap = Some w'
    /\ List.length (rocketsRef Scenario.overlap) = 1%nat
    /\ score w' = (score Scenario.overlap + 2 * ROCKET_SCORE)%Z
    /\ map (@Rocket.id float) (rocketsRef w') = [(-1)%Z]
    /\ map (@Explosion.id float) (explosionsRef w') = [3; 4; 8; 9]%Z
    /\ map (@Explosion.pos float) (skipn 2 (explosionsRef w'))
       = map (@Rocket.current float) (rocketsRef w' ++ rocketsRef w').
Proof.
  eexists. split; [vm_compute; reflexivity|].
  repeat split; vm_compute; reflexivity.
Qed.

(** C3, the code at the failing input.  A rocket is caught by an
    explosion 0.7 above the ground over the only turret.  When the
    win/loss test of that frame runs (and in the world the frame leaves),
    the rocket is still in the collection, marked -1; the kinematics of
    the next frame moves it, it reaches the ground, a ground explosion is
    created, the turret is deactivated and the match is lost. *)
Theorem dead_rocket_lands :
  exists w1 w2,
    update Scenario.quietFrame Scenario.lowRocket = Some w1
    /\ map (@Rocket.id float)
           (rocketsRef (updateExplosions
                          (updateMissiles (updateRockets Scenario.lowRocket))))
       = [(-1)%Z]
    /\ map (@Rocket.id float) (rocketsRef w1) = [(-1)%Z]
    /\ score w1 = ROCKET_SCORE
    /\ map (@Turret.active float) (turretsRef w1) = [true]
    /\ gameState w1 = PLAYING
    /\ update Scenario.quietFrame w1 = Some w2
    /\ map (@Explosion.id float) (explosionsRef w2) = [3; 8; 9]%Z
    /\ map (@Explosion.maxRadius float) (explosionsRef w2) = map lit [80; 30; 30]%Q
    /\ map (@Turret.active float) (turretsRef w2) = [false]
    /\ gameState w2 = LOST.
Proof.
  eexists. eexists. split; [vm_compute; reflexivity|].
  repeat split; vm_compute; reflexivity.
Qed.

(** ** Kinematics at distance zero, in binary64 *)

Module F64Facts.

(** Neither NaN nor an infinity. *)
Definition finiteb (x : float) : bool :=
  match Prim2SF x with
  | S754_zero _ | S754_finite _ _ _ => true
  | _ => false
  end.

Definition finitePoint (p : Point.t float) : Prop :=
  finiteb (Point.x p) = true /\ finiteb (Point.y p) = true.

Lemma sub_self (x : float) : finiteb x = true -> PrimFloat.sub x x = 0%float.
Proof.
  unfold finiteb. intros Hf. apply Prim2SF_inj. rewrite sub_spec.
  destruct (Prim2SF x) as [s|s| |s m e]; try discriminate.
  - destruct s; reflexivity.
  - unfold SF64sub, SFsub. rewrite Z.sub_diag. reflexivity.
Qed.

Lemma nan_mul (s : float) : PrimFloat.mul nan s = nan.
Proof.
  apply Prim2SF_inj. rewrite mul_spec.
  change (Prim2SF nan) with S754_nan. reflexivity.
Qed.

Lemma add_nan (s : float) : PrimFloat.add s nan = nan.
Proof.
  apply Prim2SF_inj. rewrite add_spec.
  change (Prim2SF nan) with S754_nan. destruct (Prim2SF s); reflexivity.
Qed.

Lemma nan_sub (s : float) : PrimFloat.sub nan s = nan.
Proof.
  apply Prim2SF_inj. rewrite sub_spec.
  change (Prim2SF nan) with S754_nan. reflexivity.
Qed.

Lemma leb_nan (s : float) : PrimFloat.leb s nan = false.
Proof.
  rewrite leb_spec. change (Prim2SF nan) with S754_nan.
  destruct (Prim2SF s); reflexivity.
Qed.

Lemma nan_ltb (s : float) : PrimFloat.ltb nan s = false.
Proof. rewrite ltb_spec. change (Prim2SF nan) with S754_nan. reflexivity. Qed.

(** Lines 198-205 with [target = start]: 0/0. *)
Lemma advance_nan (start cur : Point.t float) (speed : float) :
  finitePoint start -> advance start cur start speed = Point.mk nan nan.
Proof.
  intros (Hx & Hy). unfold advance. cbn [nsub nadd nmul ndiv nsqrt F64.number].
  rewrite (sub_self _ Hx), (sub_self _ Hy).
  change (PrimFloat.div 0 (PrimFloat.sqrt
            (PrimFloat.add (PrimFloat.mul 0 0) (PrimFloat.mul 0 0))))%float with nan.
  rewrite !nan_mul, !add_nan. reflexivity.
Qed.

Lemma getDistance_nan (p : Point.t float) :
  getDistance (Point.mk nan nan) p = nan.
Proof.
  unfold getDistance, square. cbn [nsub nadd nmul nsqrt F64.number Point.x Point.y].
  rewrite !nan_sub, !nan_mul, add_nan. reflexivity.
Qed.

End F64Facts.

(** C4, as the code has it.  The kinematics has no guard.  For a rocket
    or a missile whose target equals its start (finite coordinates),
    the frame sets both coordinates of the current position to NaN
    (the direction is 0/0); the impact test that follows is false, so
    the entity keeps its id and stays in its collection. *)
Theorem zero_distance_gives_nan (r : Rocket.t float) (m : Missile.t float) :
  Rocket.target r = Rocket.start r ->
  F64Facts.finitePoint (Rocket.start r) ->
  Missile.target m = Missile.start m ->
  F64Facts.finitePoint (Missile.start m) ->
  rocketAfter r = Rocket.with_current (Point.mk PrimFloat.nan PrimFloat.nan) r
  /\ missileAfter m = Missile.with_current (Point.mk PrimFloat.nan PrimFloat.nan) m.
Proof.
  intros Hr Hfr Hm Hfm. split.
  - unfold rocketAfter, rocketLands, rocketMoved. rewrite Hr.
    rewrite (F64Facts.advance_nan _ _ Hfr).
    cbn [Rocket.current Rocket.with_current Point.y nleb F64.number].
    now rewrite F64Facts.leb_nan.
  - unfold missileAfter, missileImpacts, missileMoved. rewrite Hm.
    rewrite (F64Facts.advance_nan _ _ Hfm).
    cbn [Missile.current Missile.with_current].
    rewrite F64Facts.getDistance_nan. cbn [nltb F64.number].
    now rewrite F64Facts.nan_ltb.
Qed.

(** A rocket and a missile whose target is their start. *)
Lemma zero_distance_gives_nan_witness :
  rocketAfter (Rocket.mk 1 (Scenario.pt 300 0) (Scenario.pt 300 0) (Scenario.pt 300 0)
                         (lit 0.8) "#ef4444")
  = Rocket.mk 1 (Scenario.pt 300 0) (Point.mk PrimFloat.nan PrimFloat.nan)
              (Scenario.pt 300 0) (lit 0.8) "#ef4444"
  /\ missileAfter (Missile.mk 2 (Scenario.pt 500 550) (Scenario.pt 500 550)
                              (Scenario.pt 500 550) (lit 6) 1)
     = Missile.mk 2 (Scenario.pt 500 550) (Point.mk PrimFloat.nan PrimFloat.nan)
                  (Scenario.pt 500 550) (lit 6) 1.
Proof.
  apply (@zero_distance_gives_nan
           (Rocket.mk 1 (Scenario.pt 300 0) (Scenario.pt 300 0) (Scenario.pt 300 0)
                      (lit 0.8) "#ef4444")
           (Missile.mk 2 (Scenario.pt 500 550) (Scenario.pt 500 550)
                       (Scenario.pt 500 550) (lit 6) 1));
    try reflexivity; split; vm_compute; reflexivity.
Defined.

(** C4, counterexample.  In a fresh match on a 1000 x 600 canvas the
    player clicks the apex (500, 550) of the middle turret.  The missile
    is created with target equal to start; after the next frame it is
    still in the collection, its position is not the one it had but NaN
    in both coordinates, and no explosion was created. *)
Lemma zero_distance_is_not_guarded :
  exists w1 m,
    update Scenario.quietFrame
           (handleCanvasClick (Scenario.clickAt 500 550) Scenario.freshMatch) = Some w1
    /\ missilesRef (handleCanvasClick (Scenario.clickAt 500 550) Scenario.freshMatch)
       = [Missile.mk 0 (Scenario.pt 500 550) (Scenario.pt 500 550)
                     (Scenario.pt 500 550) (lit 6) 1]
    /\ missilesRef w1 = [m]
    /\ Missile.start m = Missile.target m
    /\ PrimFloat.is_nan (Point.x (Missile.current m)) = true
    /\ PrimFloat.is_nan (Point.y (Missile.current m)) = true
    /\ Missile.current m <> Scenario.pt 500 550
    /\ explosionsRef w1 = [].
Proof.
  eexists. eexists. split; [vm_compute; reflexivity|].
  split; [vm_compute; reflexivity|].
  split; [reflexivity|].
  cbn [Missile.start Missile.target Missile.current Point.x Point.y].
  repeat split; try reflexivity.
  intros Heq. apply (f_equal (fun p => PrimFloat.is_nan (Point.x p))) in Heq.
  vm_compute in Heq. discriminate.
Qed.

(** ** The radius of an explosion over its life, in exact arithmetic *)




Module ExactFacts.
Import Exact.
Local Open Scope R_scope.

Section Trace.
Variables (i : Z) (p : Point.t xreal) (M : R).

(** An explosion with identity [i], centre [p] and maximal radius [M]. *)
Definition st (r : R) (g d : bool) : Explosion.t xreal :=
  Explosion.mk i p (Fin r) (Fin M) g d.











End Trace.


End ExactFacts.

Module ExactLife.
Import Exact.
Local Open Scope R_scope.




End ExactLife.




(** The two explosions the program creates, run in binary64: the
    lifetimes are the ones of exact arithmetic. *)
Lemma lifetime_binary64 :
  passesUntilDone 1000 (newExplosion 0 (Scenario.pt 400 300) 30)
  = Some (shrinkPasses 30 + growthPasses 30)%nat
  /\ (shrinkPasses 30 + growthPasses 30 = 58)%nat
  /\ passesUntilDone 1000 (newExplosion 0 (Scenario.pt 400 300) 80)
     = Some (shrinkPasses 80 + growthPasses 80)%nat
  /\ (shrinkPasses 80 + growthPasses 80 = 156)%nat
  /\ specLifetime 30 = 58%Z.
Proof. repeat split; vm_compute; reflexivity. Qed.

(** ** The flight of a rocket through a frame *)

Section RocketFlight.
Context {N : Type} `{Number N}.








Lemma update_cases env (w w' : World N) :
  update env w = Some w' ->
  w' = w
  \/ exists cv w1,
       gameState w = PLAYING /\ canvas env = Some cv
       /\ spawnRockets env cv (score w) w = Some w1
       /\ w' = checkWinLoss (score w)
                 (updateExplosions (updateMissiles (updateRockets w1))).
Proof.
  intros Hu. unfold update in Hu.
  destruct (gameState w) eqn:Hg; cbn in Hu; try (inversion Hu; now left).
  destruct (canvas env) as [cv|] eqn:Hc; [|inversion Hu; now left].
  destruct (spawnRockets env cv (score w) w) as [w1|] eqn:Hs; [|discriminate].
  inversion Hu; subst. right. exists cv, w1. auto.
Qed.


End RocketFlight.

(** ** Installations keep their place; a run of frames *)

Section Installed.
Context {N : Type} `{Number N}.





(** Frames run one after the other, each with its environment. *)
Fixpoint run (envs : list (TickEnv N)) (w : World N) : option (World N) :=
  match envs with
  | [] => Some w
  | env :: rest =>
      match update env w with
      | Some w1 => run rest w1
      | None => None
      end
  end.

End Installed.

(** ** Rockets stay on their ray, in exact arithmetic *)

Module Ray.
Import Exact.
Local Open Scope R_scope.

Definition fpoint (a b : R) : Point.t xreal := Point.mk (Fin a) (Fin b).




(** The length of the direction vector. *)
Definition dist (sx sy tx ty : R) : R :=
  sqrt ((tx + - sx) * (tx + - sx) + (ty + - sy) * (ty + - sy)).




End Ray.

Module RayFrame.
Import Exact Ray.
Local Open Scope R_scope.

Definition finite (a : xreal) : Prop := exists u, a = Fin u.




Lemma Q2R_zero : Q2R 0 = 0.
Proof. unfold Q2R. simpl. lra. Qed.



End RayFrame.

Module RayRun.
Import Exact Ray RayFrame.
Local Open Scope R_scope.










End RayRun.


Module RayScenario.
Import Exact.
Local Open Scope R_scope.








End RayScenario.


(** The same rocket in binary64, where the steps are rounded: over 800
    steps of the kinematics its y never decreases. *)
Fixpoint descends (k : nat) (r : Rocket.t float) : bool :=
  match k with
  | O => true
  | S k' =>
      nleb (Point.y (Rocket.current r)) (Point.y (Rocket.current (rocketMoved r)))
      && descends k' (rocketMoved r)
  end.

Lemma descent_binary64 :
  descends 800 (Rocket.mk 7 (Scenario.pt 100 0) (Scenario.pt 100 0)
                          (Scenario.pt 400 580) (lit 0.8) "#ef4444") = true.
Proof. vm_compute. reflexivity. Qed.

(** ** Ids *)

Section Ids.
Context {N : Type} `{Number N}.

Lemma checkWinLoss_nextId sc (w : World N) :
  nextIdRef (checkWinLoss sc w) = nextIdRef w.
Proof.
  unfold checkWinLoss.
  destruct (sc >=? WIN_SCORE)%Z; destruct (allTurretsDown _); reflexivity.
Qed.

(** The id counter never goes down in a frame. *)
Lemma update_nextId env (w w' : World N) :
  update env w = Some w' -> (nextIdRef w <= nextIdRef w')%Z.
Proof.
  intros Hu. destruct (update_cases _ _ Hu) as [->|(cv & w1 & Hg & Hc & Hs & ->)];
    [lia|].
  rewrite checkWinLoss_nextId.
  assert (H1 : (nextIdRef w <= nextIdRef w1)%Z).
  { unfold spawnRockets in Hs.
    destruct (nltb _ _); [|inversion Hs; lia].
    destruct (Nat.ltb _ _); [|inversion Hs; subst; cbn; lia].
    destruct (nth_error _ _); [|discriminate].
    inversion Hs; subst; cbn; lia. }
  assert (H2 : (nextIdRef w <= nextIdRef (updateRockets w1))%Z).
  { unfold updateRockets. cbn [nextIdRef set_rockets].
    apply (forEach_preserves (@rocketsRef N) rocketStep
             (fun s => (nextIdRef w <= nextIdRef s)%Z)); [|exact H1].
    intros k r s _ Hs'. unfold rocketStep. destruct (nleb _ _); cbn; lia. }
  assert (H3 : (nextIdRef w <= nextIdRef (updateMissiles (updateRockets w1)))%Z).
  { unfold updateMissiles. cbn [nextIdRef set_missiles].
    apply (forEach_preserves (@missilesRef N) missileStep
             (fun s => (nextIdRef w <= nextIdRef s)%Z)); [|exact H2].
    intros k r s _ Hs'. unfold missileStep. destruct (nltb _ _); cbn; lia. }
  unfold updateExplosions. cbn [nextIdRef set_explosions].
  apply (forEach_preserves (@explosionsRef N) explosionStep
           (fun s => (nextIdRef w <= nextIdRef s)%Z)); [|exact H3].
  intros k e s _ Hs'. unfold explosionStep.
  apply (forEach_preserves (@rocketsRef N) (collide (animate e))
           (fun s => (nextIdRef w <= nextIdRef s)%Z)); [|exact Hs'].
  intros j r s' _ Hs''. unfold collide. destruct (nltb _ _); cbn; lia.
Qed.

Lemma update_missiles_alive env (w w' : World N) :
  update env w = Some w' ->
  Forall (fun m => missileAlive m = true) (missilesRef w) ->
  Forall (fun m => missileAlive m = true) (missilesRef w').
Proof.
  intros Hu Hw. destruct (update_cases _ _ Hu) as [->|(cv & w1 & Hg & Hc & Hs & ->)];
    [exact Hw|].
  destruct (checkWinLoss_frame (score w)
              (updateExplosions (updateMissiles (updateRockets w1))))
    as (_ & -> & _).
  destruct (updateExplosions_frame (updateMissiles (updateRockets w1))) as (-> & _).
  unfold updateMissiles. cbn [missilesRef set_missiles].
  apply Forall_forall. intros m Hin. apply filter_In in Hin. tauto.
Qed.

(** In every world a session can reach, the id counter is not negative
    and no missile carries the removal mark. *)
Lemma reachable_missiles_alive (w : World N) :
  Reachable w ->
  (0 <= nextIdRef w)%Z /\ Forall (fun m => missileAlive m = true) (missilesRef w).
Proof.
  induction 1 as [|e w _ (IH1 & IH2)|env w w' _ (IH1 & IH2) Hu|e w _ (IH1 & IH2)].
  - split; [cbn; lia|constructor].
  - split; [exact IH1|constructor].
  - split.
    + pose proof (update_nextId _ _ Hu). lia.
    + eapply update_missiles_alive; eassumption.
  - unfold handleCanvasClick.
    destruct (negb (GameState_eqb (gameState w) PLAYING)); [now split|].
    destruct (click_canvas e) as [cv|]; [|now split].
    destruct (closestTurret _ _ _ _ _) as [k|]; [|now split].
    destruct (nth_error (turretsRef w) k) as [t|]; [|now split].
    cbn [nextIdRef missilesRef set_nextId set_missiles set_turrets].
    split; [lia|]. apply Forall_app. split; [exact IH2|].
    constructor; [|constructor]. unfold missileAlive. cbn [Missile.id].
    apply negb_true_iff. apply Z.eqb_neq. lia.
Qed.

End Ids.

(** * More of the frame, the click and the start of a match *)

(** ** Ground impacts (the rocket loop, lines 197-229) *)

Section GroundImpacts.
Context {N : Type} `{Number N}.

(** The point where a rocket is after its move. *)
Definition impactPoint (r : Rocket.t N) : Point.t N := Rocket.current (rocketMoved r).

(** Explosions, next id, cities and turrets after the call of the
    callback for [r]. *)
Definition impact (r : Rocket.t N)
    (st : list (Explosion.t N) * Z * list (City.t N) * list (Turret.t N))
  : list (Explosion.t N) * Z * list (City.t N) * list (Turret.t N) :=
  let '(ex, i, cs, ts) := st in
  if rocketLands r
  then (ex ++ [newExplosion i (impactPoint r) 30], (i + 1)%Z,
        map (damageCity (impactPoint r)) cs, map (damageTurret (impactPoint r)) ts)
  else st.

Lemma rocketStep_view k r (w : World N) :
  (explosionsRef (rocketStep k r w), nextIdRef (rocketStep k r w),
   citiesRef (rocketStep k r w), turretsRef (rocketStep k r w))
  = impact r (explosionsRef w, nextIdRef w, citiesRef w, turretsRef w).
Proof.
  unfold rocketStep, impact, impactPoint, rocketLands, rocketMoved. cbn.
  destruct (nleb _ _); reflexivity.
Qed.

Lemma forEach_rocketStep_view (w : World N) :
  (explosionsRef (forEach (@rocketsRef N) rocketStep w),
   nextIdRef (forEach (@rocketsRef N) rocketStep w),
   citiesRef (forEach (@rocketsRef N) rocketStep w),
   turretsRef (forEach (@rocketsRef N) rocketStep w))
  = fold_left (fun st r => impact r st) (rocketsRef w)
              (explosionsRef w, nextIdRef w, citiesRef w, turretsRef w).
Proof.
  apply (forEach_fold (@rocketsRef N) rocketStep rocketAfter
           (fun s => (explosionsRef s, nextIdRef s, citiesRef s, turretsRef s)) impact).
  - intros k a s _. exists []. rewrite app_nil_r. apply rocketStep_rockets.
  - intros k a s _. apply rocketStep_view.
Qed.

(** A city, a turret, after the impacts at the points [pts], in order. *)
Definition cityAfter (pts : list (Point.t N)) (c : City.t N) : City.t N :=
  fold_left (fun c p => damageCity p c) pts c.

Definition turretAfter (pts : list (Point.t N)) (t : Turret.t N) : Turret.t N :=
  fold_left (fun t p => damageTurret p t) pts t.

Lemma fold_impact (rs : list (Rocket.t N)) : forall ex i cs ts,
  exists blasts,
    fold_left (fun st r => impact r st) rs (ex, i, cs, ts)
    = (ex ++ blasts, (i + Z.of_nat (List.length blasts))%Z,
       map (cityAfter (map impactPoint (filter rocketLands rs))) cs,
       map (turretAfter (map impactPoint (filter rocketLands rs))) ts)
    /\ map (@Explosion.pos N) blasts = map impactPoint (filter rocketLands rs)
    /\ Forall (fresh 30) blasts.
Proof.
  induction rs as [|r rs IH]; intros ex i cs ts; cbn [fold_left filter].
  - exists []. cbn [List.length map]. rewrite app_nil_r, Z.add_0_r.
    unfold cityAfter, turretAfter. cbn [fold_left]. rewrite !map_id.
    repeat split; constructor.
  - unfold impact at 2. destruct (rocketLands r); cbn [map].
    + destruct (IH (ex ++ [newExplosion i (impactPoint r) 30]) (i + 1)%Z
                   (map (damageCity (impactPoint r)) cs)
                   (map (damageTurret (impactPoint r)) ts))
        as (bs & H1 & H2 & H3).
      exists (newExplosion i (impactPoint r) 30 :: bs).
      rewrite H1, <- app_assoc. cbn [app List.length map].
      rewrite Nat2Z.inj_succ, H2, !map_map. repeat split.
      * replace (i + 1 + Z.of_nat (List.length bs))%Z
          with (i + Z.succ (Z.of_nat (List.length bs)))%Z by lia.
        reflexivity.
      * constructor; [|exact H3]. repeat split.
    + apply IH.
Qed.

Definition near (p : Point.t N) (x : N) : bool := nltb (nabs (nsub x (Point.x p))) (lit 30).

Lemma turretAfter_spec (pts : list (Point.t N)) : forall t : Turret.t N,
  Turret.id (turretAfter pts t) = Turret.id t
  /\ Turret.x (turretAfter pts t) = Turret.x t
  /\ Turret.ammo (turretAfter pts t) = Turret.ammo t
  /\ Turret.maxAmmo (turretAfter pts t) = Turret.maxAmmo t
  /\ Turret.active (turretAfter pts t)
     = Turret.active t && forallb (fun p => negb (near p (Turret.x t))) pts.
Proof.
  induction pts as [|p pts IH]; intros t.
  - cbn. now rewrite andb_true_r.
  - unfold turretAfter in *. cbn [fold_left forallb].
    destruct (IH (damageTurret p t)) as (H1 & H2 & H3 & H4 & H5).
    rewrite H1, H2, H3, H4, H5. unfold damageTurret, near.
    destruct (Turret.active t) eqn:Ea; cbn [andb].
    + destruct (nltb _ _) eqn:En; cbn; rewrite ?Ea, ?En; auto.
    + cbn. rewrite Ea. auto.
Qed.

Lemma cityAfter_spec (pts : list (Point.t N)) : forall c : City.t N,
  City.id (cityAfter pts c) = City.id c
  /\ City.x (cityAfter pts c) = City.x c
  /\ City.active (cityAfter pts c)
     = City.active c && forallb (fun p => negb (near p (City.x c))) pts.
Proof.
  induction pts as [|p pts IH]; intros c.
  - cbn. now rewrite andb_true_r.
  - unfold cityAfter in *. cbn [fold_left forallb].
    destruct (IH (damageCity p c)) as (H1 & H2 & H3).
    rewrite H1, H2, H3. unfold damageCity, near.
    destruct (City.active c) eqn:Ea; cbn [andb].
    + destruct (nltb _ _) eqn:En; cbn; rewrite ?Ea, ?En; auto.
    + cbn. rewrite Ea. auto.
Qed.

(** The whole sub-step. *)
Lemma updateRockets_impacts (w : World N) :
  exists blasts,
    explosionsRef (updateRockets w) = explosionsRef w ++ blasts
    /\ map (@Explosion.pos N) blasts
       = map impactPoint (filter rocketLands (rocketsRef w))
    /\ Forall (fresh 30) blasts
    /\ nextIdRef (updateRockets w) = (nextIdRef w + Z.of_nat (List.length blasts))%Z
    /\ citiesRef (updateRockets w)
       = map (cityAfter (map impactPoint (filter rocketLands (rocketsRef w))))
             (citiesRef w)
    /\ turretsRef (updateRockets w)
       = map (turretAfter (map impactPoint (filter rocketLands (rocketsRef w))))
             (turretsRef w).
Proof.
  destruct (fold_impact (rocketsRef w) (explosionsRef w) (nextIdRef w)
                        (citiesRef w) (turretsRef w)) as (blasts & Hf & Hp & Hfr).
  pose proof (forEach_rocketStep_view w) as Hv. rewrite Hf in Hv.
  injection Hv as He Hi Hc Ht.
  exists blasts. unfold updateRockets.
  cbn [explosionsRef nextIdRef citiesRef turretsRef set_rockets]. auto 10.
Qed.

End GroundImpacts.

Lemma rockets_after_filter {N : Type} `{Number N} (rs : list (Rocket.t N)) :
  filter rocketAlive (map rocketAfter rs)
  = map rocketMoved (filter (fun r => rocketAlive r && negb (rocketLands r)) rs).
Proof.
  induction rs as [|r rs IH]; [reflexivity|].
  cbn [map filter]. destruct (rocketLands r) eqn:El.
  - assert (HA : rocketAfter r = Rocket.with_id (-1) (rocketMoved r))
      by (unfold rocketAfter; now rewrite El).
    rewrite HA. replace (rocketAlive (Rocket.with_id (-1) (rocketMoved r)))
      with false by reflexivity.
    rewrite andb_false_r. exact IH.
  - assert (HA : rocketAfter r = rocketMoved r)
      by (unfold rocketAfter; now rewrite El).
    rewrite HA. replace (rocketAlive (rocketMoved r)) with (rocketAlive r)
      by reflexivity.
    rewrite andb_true_r. destruct (rocketAlive r); cbn [map]; now rewrite IH.
Qed.

(** X1. The rocket sub-step as a whole.  The rockets that remain are
    those that carried no removal mark and did not reach the y of their
    target, moved, in order.  For every rocket of the array that reached
    it (marked or not), in order, an explosion of maximal radius 30
    (radius 0, growing) is appended at the point where the rocket is.  A
    turret or a city is active afterwards exactly when it was active
    and no such point is less than 30 away from it in x; nothing else of
    an installation changes. *)
Theorem ground_impact {N : Type} `{Number N} (w : World N) :
  rocketsRef (updateRockets w)
  = map rocketMoved
        (filter (fun r => rocketAlive r && negb (rocketLands r)) (rocketsRef w))
  /\ (exists blasts,
        explosionsRef (updateRockets w) = explosionsRef w ++ blasts
        /\ map (@Explosion.pos N) blasts
           = map impactPoint (filter rocketLands (rocketsRef w))
        /\ Forall (fun e => Explosion.maxRadius e = lit 30 /\ Explosion.radius e = lit 0
                            /\ Explosion.growing e = true /\ Explosion.done e = false)
                  blasts)
  /\ Forall2 (fun t t' =>
                Turret.id t' = Turret.id t /\ Turret.x t' = Turret.x t
                /\ Turret.ammo t' = Turret.ammo t /\ Turret.maxAmmo t' = Turret.maxAmmo t
                /\ Turret.active t'
                   = Turret.active t
                     && forallb (fun p => negb (near p (Turret.x t)))
                                (map impactPoint (filter rocketLands (rocketsRef w))))
             (turretsRef w) (turretsRef (updateRockets w))
  /\ Forall2 (fun c c' =>
                City.id c' = City.id c /\ City.x c' = City.x c
                /\ City.active c'
                   = City.active c
                     && forallb (fun p => negb (near p (City.x c)))
                                (map impactPoint (filter rocketLands (rocketsRef w))))
             (citiesRef w) (citiesRef (updateRockets w)).
Proof.
  destruct (updateRockets_impacts w) as (blasts & He & Hp & Hf & _ & Hc & Ht).
  split; [rewrite updateRockets_rockets; apply rockets_after_filter|].
  split.
  { exists blasts. repeat split; auto.
    eapply Forall_impl; [|exact Hf]. intros e (Ha & Hb & Hc' & Hd). auto. }
  split.
  - rewrite Ht. generalize (turretsRef w). intros ts.
    induction ts as [|t ts IH]; cbn [map]; constructor; [|exact IH].
    apply turretAfter_spec.
  - rewrite Hc. generalize (citiesRef w). intros cs.
    induction cs as [|c cs IH]; cbn [map]; constructor; [|exact IH].
    apply cityAfter_spec.
Qed.

(** ** Installations never recover *)

Section OneWay.
Context {N : Type} `{Number N}.

(** Same installation, not more active than before. *)
Definition turretDown (t t' : Turret.t N) : Prop :=
  Turret.id t' = Turret.id t /\ Turret.x t' = Turret.x t
  /\ Turret.ammo t' = Turret.ammo t /\ Turret.maxAmmo t' = Turret.maxAmmo t
  /\ (Turret.active t = false -> Turret.active t' = false).

Definition cityDown (c c' : City.t N) : Prop :=
  City.id c' = City.id c /\ City.x c' = City.x c
  /\ (City.active c = false -> City.active c' = false).

Lemma Forall2_same {A} (R : A -> A -> Prop) (l : list A) :
  (forall a, R a a) -> Forall2 R l l.
Proof. intros HR. induction l; constructor; auto. Qed.

Lemma Forall2_map_r {A} (R : A -> A -> Prop) (f : A -> A) (l : list A) :
  (forall a, R a (f a)) -> Forall2 R l (map f l).
Proof. intros HR. induction l; cbn; constructor; auto. Qed.

Lemma Forall2_compose {A} (R : A -> A -> Prop) (l1 l2 l3 : list A) :
  (forall a b c, R a b -> R b c -> R a c) ->
  Forall2 R l1 l2 -> Forall2 R l2 l3 -> Forall2 R l1 l3.
Proof.
  intros HR H12. revert l3. induction H12 as [|a b l1 l2 Hab _ IH]; intros l3 H23;
    inversion H23; subst; constructor; eauto.
Qed.

Lemma turretDown_after pts (t : Turret.t N) : turretDown t (turretAfter pts t).
Proof.
  destruct (turretAfter_spec pts t) as (H1 & H2 & H3 & H4 & H5).
  repeat split; auto. intros Ha. now rewrite H5, Ha.
Qed.

Lemma cityDown_after pts (c : City.t N) : cityDown c (cityAfter pts c).
Proof.
  destruct (cityAfter_spec pts c) as (H1 & H2 & H3).
  repeat split; auto. intros Ha. now rewrite H3, Ha.
Qed.

Lemma turretDown_trans (a b c : Turret.t N) :
  turretDown a b -> turretDown b c -> turretDown a c.
Proof.
  intros (A1 & A2 & A3 & A4 & A5) (B1 & B2 & B3 & B4 & B5).
  repeat split; try congruence. auto.
Qed.

Lemma cityDown_trans (a b c : City.t N) :
  cityDown a b -> cityDown b c -> cityDown a c.
Proof.
  intros (A1 & A2 & A3) (B1 & B2 & B3). repeat split; try congruence. auto.
Qed.

Lemma update_down env (w w' : World N) :
  update env w = Some w' ->
  Forall2 turretDown (turretsRef w) (turretsRef w')
  /\ Forall2 cityDown (citiesRef w) (citiesRef w').
Proof.
  intros Hu. destruct (update_cases _ _ Hu) as [->|(cv & w1 & Hg & Hc & Hs & ->)].
  - split; apply Forall2_same; intros a; repeat split; auto.
  - destruct (checkWinLoss_frame (score w)
                (updateExplosions (updateMissiles (updateRockets w1))))
      as (_ & _ & _ & -> & -> & _).
    destruct (updateExplosions_frame (updateMissiles (updateRockets w1)))
      as (_ & -> & -> & _).
    destruct (updateMissiles_frame (updateRockets w1)) as (_ & -> & -> & _).
    destruct (updateRockets_impacts w1) as (_ & _ & _ & _ & _ & -> & ->).
    destruct (spawnRockets_frame _ _ _ _ Hs) as (_ & _ & -> & -> & _).
    split; apply Forall2_map_r; intros a;
      [apply turretDown_after|apply cityDown_after].
Qed.

End OneWay.

(** X2. Once a turret or a city is inactive, no run of frames makes it
    active again, and frames change nothing else of an installation
    (id, x, ammo); a click changes neither the cities nor the active
    flag of any turret. *)
Theorem installations_never_recover {N : Type} `{Number N} (w : World N) :
  (forall envs w', run envs w = Some w' ->
     Forall2 turretDown (turretsRef w) (turretsRef w')
     /\ Forall2 cityDown (citiesRef w) (citiesRef w'))
  /\ (forall e, citiesRef (handleCanvasClick e w) = citiesRef w
                /\ map (@Turret.active N) (turretsRef (handleCanvasClick e w))
                   = map (@Turret.active N) (turretsRef w)).
Proof.
  split.
  - intros envs. revert w. induction envs as [|env rest IH]; intros w w' Hrun.
    + cbn in Hrun. inversion Hrun; subst.
      split; apply Forall2_same; intros a; repeat split; auto.
    + cbn [run] in Hrun. destruct (update env w) as [w1|] eqn:Hu; [|discriminate].
      destruct (update_down _ _ Hu) as (Ht1 & Hc1).
      destruct (IH w1 w' Hrun) as (Ht2 & Hc2). split.
      * exact (Forall2_compose turretDown_trans Ht1 Ht2).
      * exact (Forall2_compose cityDown_trans Hc1 Hc2).
  - intros e. unfold handleCanvasClick.
    destruct (negb (GameState_eqb (gameState w) PLAYING)); [now split|].
    destruct (click_canvas e) as [cv|]; [|now split].
    destruct (closestTurret _ _ _ _ _) as [k|]; [|now split].
    destruct (nth_error (turretsRef w) k) as [t|] eqn:Hn; [|now split].
    cbn [citiesRef turretsRef set_nextId set_missiles set_turrets].
    split; [reflexivity|].
    rewrite map_writeAt. cbn [Turret.active Turret.with_ammo].
    apply nth_error_writeAt_same. now rewrite nth_error_map, Hn.
Qed.

(** ** The click, beyond the missile *)

(** X3. A click either changes nothing at all -- always so when the
    match is not in progress or the canvas is missing -- or it lowers
    the ammo of one active turret with ammo by one, appends one missile
    that carries the current value of the id counter and the index of
    that turret, and advances the counter by one; rockets, explosions,
    cities, score, match state and spawn timer are never touched. *)
Theorem click_effect {N : Type} `{Number N} (e : ClickEnv N) (w : World N) :
  (gameState w <> PLAYING \/ click_canvas e = None -> handleCanvasClick e w = w)
  /\ (handleCanvasClick e w = w
      \/ exists k t m,
           nth_error (turretsRef w) k = Some t
           /\ Turret.active t = true /\ (0 < Turret.ammo t)%Z
           /\ Missile.id m = nextIdRef w /\ Missile.turretIndex m = Z.of_nat k
           /\ handleCanvasClick e w
              = mkWorld (rocketsRef w) (missilesRef w ++ [m]) (explosionsRef w)
                        (citiesRef w)
                        (writeAt k (Turret.with_ammo (Turret.ammo t - 1)%Z t)
                                 (turretsRef w))
                        (nextIdRef w + 1)%Z (lastSpawnTimeRef w) (score w)
                        (gameState w)).
Proof.
  split.
  - unfold handleCanvasClick. intros [Hg|Hc].
    + destruct (gameState w); try reflexivity. now elim Hg.
    + rewrite Hc. now destruct (negb _).
  - unfold handleCanvasClick.
    destruct (negb (GameState_eqb (gameState w) PLAYING)); [now left|].
    destruct (click_canvas e) as [cv|]; [|now left].
    destruct (closestTurret _ _ _ _ _) as [k|] eqn:Hsel; [|now left].
    destruct (closestTurret_some _ _ _ _ _ Hsel) as [Hb|(t & _ & Hn & Ha & Hm)];
      [discriminate|].
    rewrite Nat.sub_0_r in Hn. rewrite Hn. right.
    eexists k, t, _. repeat split; try eassumption; reflexivity.
Qed.

(** ** The states of a match *)

Section MatchState.
Context {N : Type} `{Number N}.

Lemma run_idle (envs : list (TickEnv N)) (w : World N) :
  gameState w <> PLAYING -> run envs w = Some w.
Proof.
  intros Hg. induction envs as [|env rest IH]; [reflexivity|].
  cbn [run]. rewrite update_idle by now left. exact IH.
Qed.

Lemma click_idle (e : ClickEnv N) (w : World N) :
  gameState w <> PLAYING -> handleCanvasClick e w = w.
Proof.
  intros Hg. unfold handleCanvasClick.
  destruct (gameState w); try reflexivity. now elim Hg.
Qed.

Lemma allTurretsDown_active (w w' : World N) :
  map (@Turret.active N) (turretsRef w') = map (@Turret.active N) (turretsRef w) ->
  allTurretsDown w' = allTurretsDown w.
Proof.
  unfold allTurretsDown. generalize (turretsRef w) (turretsRef w').
  induction l as [|t l IH]; intros [|t' l'] E; cbn in *; try discriminate; auto.
  injection E as E1 E2. now rewrite E1, (IH l' E2).
Qed.

Lemma click_active (e : ClickEnv N) (w : World N) :
  map (@Turret.active N) (turretsRef (handleCanvasClick e w))
  = map (@Turret.active N) (turretsRef w).
Proof.
  unfold handleCanvasClick.
  destruct (negb (GameState_eqb (gameState w) PLAYING)); [reflexivity|].
  destruct (click_canvas e) as [cv|]; [|reflexivity].
  destruct (closestTurret _ _ _ _ _) as [k|]; [|reflexivity].
  destruct (nth_error (turretsRef w) k) as [t|] eqn:Hn; [|reflexivity].
  cbn [turretsRef set_nextId set_missiles set_turrets].
  rewrite map_writeAt. cbn [Turret.active Turret.with_ammo].
  apply nth_error_writeAt_same. now rewrite nth_error_map, Hn.
Qed.

Lemma click_state (e : ClickEnv N) (w : World N) :
  gameState (handleCanvasClick e w) = gameState w
  /\ score (handleCanvasClick e w) = score w.
Proof.
  unfold handleCanvasClick.
  destruct (negb (GameState_eqb (gameState w) PLAYING)); [now split|].
  destruct (click_canvas e) as [cv|]; [|now split].
  destruct (closestTurret _ _ _ _ _) as [k|]; [|now split].
  destruct (nth_error (turretsRef w) k) as [t|]; now split.
Qed.

(** The state a frame that ran leaves. *)
Lemma frame_state env (w w' : World N) :
  update env w = Some w' ->
  w' = w
  \/ (gameState w = PLAYING
      /\ gameState w'
         = if allTurretsDown w' then LOST
           else if (score w >=? WIN_SCORE)%Z then WON else PLAYING).
Proof.
  intros Hu. destruct (update_cases _ _ Hu) as [->|(cv & w1 & Hg & Hc & Hs & ->)];
    [now left|right].
  split; [exact Hg|].
  rewrite checkWinLoss_gameState.
  set (w4 := updateExplosions (updateMissiles (updateRockets w1))).
  assert (Ht : allTurretsDown (checkWinLoss (score w) w4) = allTurretsDown w4).
  { unfold allTurretsDown.
    destruct (checkWinLoss_frame (score w) w4) as (_ & _ & _ & _ & -> & _).
    reflexivity. }
  rewrite Ht.
  assert (Hg4 : gameState w4 = PLAYING).
  { unfold w4.
    destruct (updateExplosions_frame (updateMissiles (updateRockets w1)))
      as (_ & _ & _ & -> & _).
    destruct (updateMissiles_frame (updateRockets w1)) as (_ & _ & _ & _ & -> & _).
    destruct (updateRockets_frame w1) as (_ & _ & -> & _).
    destruct (spawnRockets_frame _ _ _ _ Hs) as (_ & _ & _ & _ & _ & ->).
    exact Hg. }
  now rewrite Hg4.
Qed.

(** What the state of the match tells about the world. *)
Definition stateSays (w : World N) : Prop :=
  match gameState w with
  | START => w = initialWorld
  | PLAYING => allTurretsDown w = false
  | WON => (WIN_SCORE <= score w)%Z /\ allTurretsDown w = false
  | LOST => allTurretsDown w = true
  end.

Lemma reachable_stateSays (w : World N) : Reachable w -> stateSays w.
Proof.
  induction 1 as [|e w _ _|env w w' Hr IH Hu|e w _ IH].
  - reflexivity.
  - reflexivity.
  - destruct (frame_state _ _ Hu) as [->|(Hg & Hg')]; [exact IH|].
    unfold stateSays. rewrite Hg'.
    destruct (allTurretsDown w') eqn:Hd; [reflexivity|].
    destruct (score w >=? WIN_SCORE)%Z eqn:Hs; [|reflexivity].
    split; [|reflexivity].
    destruct (update_score _ _ Hu) as (n & ->).
    apply Z.geb_le in Hs. unfold ROCKET_SCORE. lia.
  - destruct (gameState w) eqn:Hg.
    + rewrite click_idle by congruence. exact IH.
    + unfold stateSays in *. destruct (click_state e w) as (Hs & _).
      rewrite Hs, Hg. rewrite Hg in IH.
      now rewrite (@allTurretsDown_active w (handleCanvasClick e w) (click_active e w)).
    + rewrite click_idle by congruence. exact IH.
    + rewrite click_idle by congruence. exact IH.
Qed.

Lemma reachable_score (w : World N) :
  Reachable w -> exists n : nat, score w = (ROCKET_SCORE * Z.of_nat n)%Z.
Proof.
  induction 1 as [|e w _ _|env w w' _ (n & IH) Hu|e w _ (n & IH)].
  - exists 0%nat. reflexivity.
  - exists 0%nat. reflexivity.
  - destruct (update_score _ _ Hu) as (k & ->). exists (n + k)%nat.
    rewrite IH, Nat2Z.inj_add. lia.
  - exists n. destruct (click_state e w) as (_ & ->). exact IH.
Qed.

End MatchState.

(** X4. WON and LOST (and the state before the first match) are
    terminal for frames and clicks: from a world that is not PLAYING,
    any run of frames and any click leave the world exactly as it is;
    only [initGame] leaves such a state. *)
Theorem terminal_states_absorb {N : Type} `{Number N} (w : World N) :
  gameState w <> PLAYING ->
  (forall envs, run envs w = Some w)
  /\ (forall e, handleCanvasClick e w = w)
  /\ (forall e, gameState (initGame e w) = PLAYING).
Proof.
  intros Hg. split; [|split].
  - intros envs. now apply run_idle.
  - intros e. now apply click_idle.
  - reflexivity.
Qed.

Module Ended.
Local Open Scope float_scope.
#[local] Set Warnings "-inexact-float".

(** A lost match with a rocket still in the air and a turret with ammo. *)
Definition lost : World float :=
  mkWorld [Rocket.mk 41 (Scenario.pt 100 0) (Scenario.pt 100 300) (Scenario.pt 100 580)
                     0.8 "#ef4444"]
          [] [] []
          [Turret.mk 1 100 3 20 false;
           Turret.mk 5 500 0 40 false;
           Turret.mk 9 900 7 20 false]
          42 0 980 LOST.

End Ended.

(** Two frames and a click on the lost match. *)
Lemma terminal_states_absorb_witness :
  gameState Ended.lost <> PLAYING
  /\ run [Scenario.quietFrame; Scenario.quietFrame] Ended.lost = Some Ended.lost
  /\ handleCanvasClick (Scenario.clickAt 400 300) Ended.lost = Ended.lost.
Proof.
  assert (Hg : gameState Ended.lost <> PLAYING) by (cbn; discriminate).
  split; [exact Hg|].
  split.
  - exact (proj1 (@terminal_states_absorb _ _ Ended.lost Hg)
                 [Scenario.quietFrame; Scenario.quietFrame]).
  - exact (proj1 (proj2 (@terminal_states_absorb _ _ Ended.lost Hg))
                 (Scenario.clickAt 400 300)).
Defined.

(** X5. The state of the match is backed by the world, in every world a
    session can reach: WON only with a score of at least 1000 and a
    turret still active; LOST only with every turret inactive; PLAYING
    only with a turret still active; START only in the world of the
    mounted component. *)
Theorem match_state_invariant {N : Type} `{Number N} (w : World N) :
  Reachable w ->
  match gameState w with
  | START => w = initialWorld
  | PLAYING => allTurretsDown w = false
  | WON => (WIN_SCORE <= score w)%Z /\ allTurretsDown w = false
  | LOST => allTurretsDown w = true
  end.
Proof. intros Hr. exact (reachable_stateSays Hr). Qed.

(** X6. In every world a session can reach, the score is a multiple of
    20 and not negative. *)
Theorem score_is_multiple_of_20 {N : Type} `{Number N} (w : World N) :
  Reachable w -> (0 <= score w)%Z /\ (score w mod 20 = 0)%Z.
Proof.
  intros Hr. destruct (reachable_score Hr) as (n & ->). unfold ROCKET_SCORE.
  split; [lia|]. rewrite Z.mul_comm. apply Z_mod_mult.
Qed.

(** A fresh match after one click. *)
Lemma match_state_invariant_witness :
  Reachable (handleCanvasClick (Scenario.clickAt 400 300) Scenario.freshMatch)
  /\ match gameState (handleCanvasClick (Scenario.clickAt 400 300) Scenario.freshMatch) with
     | START => handleCanvasClick (Scenario.clickAt 400 300) Scenario.freshMatch
                = initialWorld
     | PLAYING => allTurretsDown (handleCanvasClick (Scenario.clickAt 400 300)
                                                    Scenario.freshMatch) = false
     | WON => (WIN_SCORE <= score (handleCanvasClick (Scenario.clickAt 400 300)
                                                     Scenario.freshMatch))%Z
              /\ allTurretsDown (handleCanvasClick (Scenario.clickAt 400 300)
                                                   Scenario.freshMatch) = false
     | LOST => allTurretsDown (handleCanvasClick (Scenario.clickAt 400 300)
                                                  Scenario.freshMatch) = true
     end.
Proof.
  assert (Hr : Reachable (handleCanvasClick (Scenario.clickAt 400 300)
                                            Scenario.freshMatch)).
  { apply reach_click. apply reach_init. apply reach_mount. }
  split; [exact Hr|]. exact (@match_state_invariant _ _ _ Hr).
Defined.

(** A second match, started after a click in the first. *)
Lemma score_is_multiple_of_20_witness :
  Reachable (initGame (mkInitEnv 1000 600 0)%float
               (handleCanvasClick (Scenario.clickAt 400 300) Scenario.freshMatch))
  /\ (0 <= score (initGame (mkInitEnv 1000 600 0)%float
                    (handleCanvasClick (Scenario.clickAt 400 300) Scenario.freshMatch)))%Z
  /\ (score (initGame (mkInitEnv 1000 600 0)%float
               (handleCanvasClick (Scenario.clickAt 400 300) Scenario.freshMatch))
      mod 20 = 0)%Z.
Proof.
  assert (Hr : Reachable (initGame (mkInitEnv 1000 600 0)%float
                 (handleCanvasClick (Scenario.clickAt 400 300) Scenario.freshMatch))).
  { apply reach_init. apply reach_click. apply reach_init. apply reach_mount. }
  split; [exact Hr|]. exact (@score_is_multiple_of_20 _ _ _ Hr).
Defined.

(** ** The spawn timer, in exact arithmetic *)

Module SpawnTimer.
Import Exact.
Local Open Scope R_scope.






End SpawnTimer.



(** ** The turret a click selects, in exact arithmetic *)

Module Nearest.
Import Exact.
Local Open Scope R_scope.

(** The test of line 420. *)
Definition eligible (t : Turret.t xreal) : bool :=
  Turret.active t && (Turret.ammo t >? 0)%Z.

(** The horizontal distance of a turret from the click at [cx]. *)
Definition gap (cx : R) (t : Turret.t xreal) : R :=
  match Turret.x t with
  | Fin a => Rabs (a - cx)
  | _ => 0
  end.

(** [d] would replace the running minimum [md]. *)
Definition below (md : xreal) (d : R) : Prop :=
  match md with
  | Fin m => d < m
  | Inf false => True
  | _ => False
  end.

Lemma below_ltb (md : xreal) (d : R) :
  (md = Inf false \/ exists m, md = Fin m) ->
  (xltb (Fin d) md = true <-> below md d).
Proof.
  intros [->|(m & ->)]; cbn.
  - tauto.
  - destruct (Rlt_dec d m); split; intros; auto; discriminate.
Qed.

Lemma step_distance (cx : R) (t : Turret.t xreal) :
  RayFrame.finite (Turret.x t) ->
  nabs (nsub (Turret.x t) (Fin cx)) = Fin (gap cx t).
Proof.
  intros (a & Ha). unfold gap. rewrite Ha. cbn. f_equal; f_equal; lra.
Qed.

Lemma shift_min (cx : R) (t : Turret.t xreal) (ts : list (Turret.t xreal))
      (j : nat) (t2 : Turret.t xreal) :
  (eligible t = true -> gap cx t2 < gap cx t) ->
  (forall i t', nth_error ts i = Some t' -> eligible t' = true ->
     gap cx t2 <= gap cx t' /\ ((i < j)%nat -> gap cx t2 < gap cx t')) ->
  forall i t', nth_error (t :: ts) i = Some t' -> eligible t' = true ->
    gap cx t2 <= gap cx t' /\ ((i < S j)%nat -> gap cx t2 < gap cx t').
Proof.
  intros Hhead Hmin i t' Hi He'. destruct i as [|i]; cbn in Hi.
  - inversion Hi; subst t'. specialize (Hhead He'). split; [lra|intros _; exact Hhead].
  - destruct (Hmin i t' Hi He') as (Hle & Hlt). split; [exact Hle|].
    intros Hij. apply Hlt. lia.
Qed.

Lemma closestTurret_min (cx : R) (ts : list (Turret.t xreal)) :
  Forall (fun t => RayFrame.finite (Turret.x t)) ts ->
  forall k0 best md,
    (md = Inf false \/ exists m, md = Fin m) ->
    (closestTurret (Fin cx) ts k0 best md = best
     /\ forall t, In t ts -> eligible t = true -> ~ below md (gap cx t))
    \/ exists j t,
         closestTurret (Fin cx) ts k0 best md = Some (k0 + j)%nat
         /\ nth_error ts j = Some t /\ eligible t = true /\ below md (gap cx t)
         /\ forall i t', nth_error ts i = Some t' -> eligible t' = true ->
              gap cx t <= gap cx t' /\ ((i < j)%nat -> gap cx t < gap cx t').
Proof.
  induction 1 as [|t ts Hfin _ IH]; intros k0 best md Hmd.
  - left. split; [reflexivity|]. intros t [].
  - cbn [closestTurret]. fold (eligible t).
    destruct (eligible t) eqn:Hel.
    + rewrite (@step_distance cx t Hfin).
      replace (nltb (Fin (gap cx t)) md) with (xltb (Fin (gap cx t)) md) by reflexivity.
      destruct (xltb (Fin (gap cx t)) md) eqn:Hlt.
      * apply (@below_ltb md (gap cx t) Hmd) in Hlt.
        destruct (IH (S k0) (Some k0) (Fin (gap cx t)))
          as [(Hres & Hall)|(j & t2 & Hres & Hn & He & Hb & Hmin)];
          [right; now exists (gap cx t)| |].
        -- right. exists 0%nat, t. rewrite Hres, Nat.add_0_r.
           split; [reflexivity|]. split; [reflexivity|]. split; [exact Hel|].
           split; [exact Hlt|].
           intros i t' Hi He'. destruct i as [|i]; cbn in Hi.
           ++ inversion Hi; subst t'. split; [lra|lia].
           ++ apply nth_error_In in Hi. specialize (Hall t' Hi He'). cbn in Hall.
              split; [lra|lia].
        -- right. exists (S j), t2. cbn in Hb. rewrite Hres.
           replace (S k0 + j)%nat with (k0 + S j)%nat by lia.
           split; [reflexivity|]. split; [exact Hn|]. split; [exact He|].
           split.
           { destruct Hmd as [->|(m & ->)]; cbn in *; auto. lra. }
           apply shift_min; [intros _; exact Hb|exact Hmin].
      * assert (Hnb : ~ below md (gap cx t)).
        { intros Hb. apply (@below_ltb md (gap cx t) Hmd) in Hb. congruence. }
        destruct (IH (S k0) best md Hmd)
          as [(Hres & Hall)|(j & t2 & Hres & Hn & He & Hb & Hmin)].
        -- left. split; [exact Hres|]. intros t' [<-|Hin] He'; auto.
        -- right. exists (S j), t2. rewrite Hres.
           replace (S k0 + j)%nat with (k0 + S j)%nat by lia.
           split; [reflexivity|]. split; [exact Hn|]. split; [exact He|].
           split; [exact Hb|].
           apply shift_min; [|exact Hmin]. intros _.
           destruct Hmd as [->|(m & ->)]; cbn in *; [tauto|lra].
    + destruct (IH (S k0) best md Hmd)
        as [(Hres & Hall)|(j & t2 & Hres & Hn & He & Hb & Hmin)].
      * left. split; [exact Hres|]. intros t' [<-|Hin] He'; [congruence|auto].
      * right. exists (S j), t2. rewrite Hres.
        replace (S k0 + j)%nat with (k0 + S j)%nat by lia.
        split; [reflexivity|]. split; [exact Hn|]. split; [exact He|].
        split; [exact Hb|].
        apply shift_min; [|exact Hmin]. intros He'. congruence.
Qed.

End Nearest.

(** X8. In exact arithmetic, for a click at a finite x and turrets at
    finite x: the selection loop returns no turret exactly when no
    turret is active with ammo; otherwise it returns the index of an
    active turret with ammo whose horizontal distance to the click is
    the least among those, and the first such index: every active turret
    with ammo at a smaller index is strictly farther. *)
Theorem nearest_turret_selected (cx : R) (ts : list (Turret.t Exact.xreal)) :
  Forall (fun t => RayFrame.finite (Turret.x t)) ts ->
  match closestTurret (Exact.Fin cx) ts 0 None inf with
  | None => forall t, In t ts -> Nearest.eligible t = false
  | Some k =>
      exists t,
        nth_error ts k = Some t /\ Nearest.eligible t = true
        /\ forall i t', nth_error ts i = Some t' -> Nearest.eligible t' = true ->
             (Nearest.gap cx t <= Nearest.gap cx t')%R
             /\ ((i < k)%nat -> (Nearest.gap cx t < Nearest.gap cx t')%R)
  end.
Proof.
  intros Hfin.
  destruct (@Nearest.closestTurret_min cx ts Hfin 0%nat None (Exact.Inf false))
    as [(Hres & Hall)|(j & t & Hres & Hn & He & _ & Hmin)]; [now left| |].
  - change inf with (Exact.Inf false). rewrite Hres. intros t Hin.
    destruct (Nearest.eligible t) eqn:He; [|reflexivity].
    exfalso. apply (Hall t Hin He). exact I.
  - change inf with (Exact.Inf false). rewrite Hres. cbn [Nat.add].
    exists t. auto.
Qed.

Module Battery.
Import Exact.
Local Open Scope R_scope.

(** The three turrets of a 1000 wide canvas, the middle one out of
    ammo. *)
Definition turrets : list (Turret.t xreal) :=
  [Turret.mk 1 (Fin 100) 20 20 true;
   Turret.mk 5 (Fin 500) 0 40 true;
   Turret.mk 9 (Fin 900) 20 20 true].

Definition rocket : Rocket.t xreal :=
  Rocket.mk 7 (Ray.fpoint 100 0) (Ray.fpoint 100 0) (Ray.fpoint 400 580)
            (Fin 0.8) "#ef4444".

Definition missile : Missile.t xreal :=
  Missile.mk 8 (Ray.fpoint 500 550) (Ray.fpoint 500 550) (Ray.fpoint 400 300)
             (Fin 6) 1.

End Battery.

(** A click straight above the middle turret, which is out of ammo. *)
Lemma nearest_turret_selected_witness :
  Forall (fun t => RayFrame.finite (Turret.x t)) Battery.turrets
  /\ match closestTurret (Exact.Fin 500) Battery.turrets 0 None inf with
     | None => forall t, In t Battery.turrets -> Nearest.eligible t = false
     | Some k =>
         exists t,
           nth_error Battery.turrets k = Some t /\ Nearest.eligible t = true
           /\ forall i t', nth_error Battery.turrets i = Some t' ->
                           Nearest.eligible t' = true ->
                (Nearest.gap 500 t <= Nearest.gap 500 t')%R
                /\ ((i < k)%nat -> (Nearest.gap 500 t < Nearest.gap 500 t')%R)
     end.
Proof.
  assert (Hf : Forall (fun t => RayFrame.finite (Turret.x t)) Battery.turrets).
  { repeat constructor; cbn; [now exists 100%R|now exists 500%R|now exists 900%R]. }
  split; [exact Hf|]. exact (@nearest_turret_selected 500 Battery.turrets Hf).
Defined.

(** ** Geometry of a frame, in exact arithmetic *)

Module Geometry.
Import Exact.
Local Open Scope R_scope.

(** [Math.sqrt] never yields a negative number. *)
Lemma getDistance_cases (p q : Point.t xreal) :
  getDistance p q = NaN \/ getDistance p q = Inf false
  \/ exists d, 0 <= d /\ getDistance p q = Fin d.
Proof.
  unfold getDistance. cbn [nsqrt number].
  destruct (nadd _ _) as [|[|]|u]; cbn; auto.
  unfold Rneg. destruct (Rlt_dec u 0); auto.
  right. right. exists (sqrt u). split; [apply sqrt_pos|reflexivity].
Qed.

Lemma caught_needs_radius (e : Explosion.t xreal) (r : Rocket.t xreal) (rad : R) :
  Explosion.radius e = Fin rad -> rad <= 0 -> caught e r = false.
Proof.
  intros Hr Hle. unfold caught. rewrite Hr.
  destruct (getDistance_cases (Explosion.pos e) (Rocket.current r))
    as [->|[->|(d & Hd & ->)]]; cbn; auto.
  destruct (Rlt_dec d rad); [lra|reflexivity].
Qed.


End Geometry.

(** X9. In exact arithmetic, an explosion whose radius is at most 0
    catches no rocket, wherever the rocket is: neither an explosion that
    has just been created (radius 0), nor one in the pass that sets
    [done], which is the pass that removes it. *)
Theorem spent_explosion_is_harmless (e : Explosion.t Exact.xreal)
        (r : Rocket.t Exact.xreal) (rad : R) :
  Explosion.radius e = Exact.Fin rad ->
  ((rad <= 0)%R -> caught e r = false)
  /\ (Explosion.growing e = false -> Explosion.done e = false ->
      Explosion.done (animate e) = true -> caught (animate e) r = false).
Proof.
  intros Hr. split.
  - intros Hle. exact (@Geometry.caught_needs_radius e r rad Hr Hle).
  - intros Hg Hd Hdone. unfold animate in *. rewrite Hg in *. rewrite Hr in *.
    cbn in Hdone. rewrite Hd in Hdone.
    destruct (Rle_dec _ _) as [Hle|_]; [|discriminate].
    apply (@Geometry.caught_needs_radius _ r (rad + - Q2R 0.8)); [reflexivity|].
    unfold Q2R in *. simpl in *. lra.
Qed.

(** A fresh explosion on top of a rocket. *)
Lemma spent_explosion_is_harmless_witness :
  Explosion.radius (newExplosion 3 (Ray.fpoint 100 0) 80) = Exact.Fin (Q2R 0)
  /\ caught (newExplosion 3 (Ray.fpoint 100 0) 80) Battery.rocket = false.
Proof.
  split; [reflexivity|].
  refine (proj1 (@spent_explosion_is_harmless (newExplosion 3 (Ray.fpoint 100 0) 80)
                   Battery.rocket (Q2R 0) eq_refl) _).
  rewrite RayFrame.Q2R_zero. apply Rle_refl.
Defined.



(** ** Flights from start to end, in exact arithmetic *)



Module Flight.
Import Exact.
Local Open Scope R_scope.






End Flight.

Module FlightRun.
Import Exact.
Local Open Scope R_scope.


Section Rockets.
Variables (r : Rocket.t xreal) (sx sy tx ty v : R).
Hypothesis Hstart : Rocket.start r = Ray.fpoint sx sy.
Hypothesis Hcurrent : Rocket.current r = Ray.fpoint sx sy.
Hypothesis Htarget : Rocket.target r = Ray.fpoint tx ty.
Hypothesis Hspeed : Rocket.speed r = Fin v.
Hypothesis Hne : sx <> tx \/ sy <> ty.





End Rockets.

Section Missiles.
Variables (m : Missile.t xreal) (sx sy tx ty v : R).
Hypothesis Hstart : Missile.start m = Ray.fpoint sx sy.
Hypothesis Hcurrent : Missile.current m = Ray.fpoint sx sy.
Hypothesis Htarget : Missile.target m = Ray.fpoint tx ty.
Hypothesis Hspeed : Missile.speed m = Fin v.
Hypothesis Hne : sx <> tx \/ sy <> ty.





End Missiles.

End FlightRun.





(** ** The id counter *)

Section FreshIds.
Context {N : Type} `{Number N}.

Definition occ (l : list Z) (i : Z) : nat := count_occ Z.eq_dec l i.

(** How many objects of the world carry the id [i]; the removal mark
    [-1] on a rocket or a missile is not an id. *)
Definition carriers (w : World N) (i : Z) : nat :=
  ((if (i =? -1)%Z then 0
    else occ (map (@Rocket.id N) (rocketsRef w)) i
         + occ (map (@Missile.id N) (missilesRef w)) i)
   + occ (map (@Explosion.id N) (explosionsRef w)) i)%nat.

(** Every id is carried at most once and was handed out by the counter. *)
Definition Fresh (w : World N) : Prop :=
  (0 <= nextIdRef w)%Z
  /\ forall i, (carriers w i <= 1)%nat
               /\ ((i < 0 \/ nextIdRef w <= i)%Z -> carriers w i = 0%nat).

Lemma occ_app (l l' : list Z) (i : Z) : occ (l ++ l') i = (occ l i + occ l' i)%nat.
Proof. apply count_occ_app. Qed.

Lemma occ_one (a i : Z) : occ [a] i = if (i =? a)%Z then 1%nat else 0%nat.
Proof.
  unfold occ. cbn. destruct (Z.eq_dec a i) as [->|Hne].
  - now rewrite Z.eqb_refl.
  - destruct (Z.eqb_spec i a); [congruence|reflexivity].
Qed.

Lemma occ_writeAt {A} (f : A -> Z) (b : A) (i : Z) :
  forall (l : list A) (k : nat) (a : A),
    nth_error l k = Some a -> f b = f a \/ f b <> i ->
    (occ (map f (writeAt k b l)) i <= occ (map f l) i)%nat.
Proof.
  induction l as [|c l IH]; intros k a Hn Hb; [destruct k; discriminate|].
  destruct k as [|k]; cbn in Hn |- *.
  - injection Hn as ->. unfold occ. cbn.
    destruct (Z.eq_dec (f b) i) as [Eb|Eb], (Z.eq_dec (f a) i) as [Ea|Ea]; lia.
  - specialize (IH k a Hn Hb). unfold occ in *. cbn.
    destruct (Z.eq_dec (f c) i); lia.
Qed.

Lemma occ_filter {A} (f : A -> Z) (p : A -> bool) (i : Z) (l : list A) :
  (occ (map f (filter p l)) i <= occ (map f l) i)%nat.
Proof.
  induction l as [|c l IH]; [apply Nat.le_refl|].
  unfold occ in *. cbn. destruct (p c); cbn; destruct (Z.eq_dec (f c) i); lia.
Qed.

(** A step that hands out at most the next id, once, and otherwise only
    drops carriers, keeps the ids fresh. *)
Lemma Fresh_step (w w' : World N) (pushed : bool) :
  Fresh w ->
  nextIdRef w' = (if pushed then nextIdRef w + 1 else nextIdRef w)%Z ->
  (forall i, (carriers w' i
              <= carriers w i
                 + (if pushed && (i =? nextIdRef w)%Z then 1 else 0))%nat) ->
  Fresh w'.
Proof.
  intros [H0 Hw] Hn Hc. split; [destruct pushed; lia|].
  intros i. specialize (Hc i). destruct (Hw i) as [H1 H2].
  destruct pushed; cbn [andb] in Hc.
  - destruct (Z.eqb_spec i (nextIdRef w)) as [Hi|Hne].
    + rewrite H2 in Hc by lia. split; [lia|]. intros ?. lia.
    + split; [lia|]. intros Hi. rewrite H2 in Hc by lia. lia.
  - split; [lia|]. intros Hi. rewrite H2 in Hc by lia. lia.
Qed.

Lemma rocketStep_fresh k r (w : World N) :
  nth_error (rocketsRef w) k = Some r -> Fresh w -> Fresh (rocketStep k r w).
Proof.
  intros Hn Hw. unfold rocketStep. destruct (nleb _ _).
  - apply (@Fresh_step w _ true Hw); [reflexivity|].
    intros i. unfold carriers.
    cbn [rocketsRef missilesRef explosionsRef nextIdRef pushExplosion set_nextId
         set_explosions set_cities set_turrets set_rockets newExplosion andb].
    rewrite map_app, occ_app. unfold newExplosion. cbn [map Explosion.id].
    rewrite occ_one.
    destruct (Z.eqb_spec i (-1)) as [Hi|Hi]; [lia|].
    pose proof (@occ_writeAt _ (@Rocket.id N)
                  (Rocket.with_id (-1)
                     (Rocket.with_current
                        (advance (Rocket.start r) (Rocket.current r)
                                 (Rocket.target r) (Rocket.speed r)) r))
                  i (rocketsRef w) k r Hn) as Hle.
    cbn [Rocket.id Rocket.with_id] in Hle. specialize (Hle ltac:(right; lia)). lia.
  - apply (@Fresh_step w _ false Hw); [reflexivity|].
    intros i. unfold carriers. cbn [rocketsRef missilesRef explosionsRef set_rockets andb].
    pose proof (@occ_writeAt _ (@Rocket.id N)
                  (Rocket.with_current
                     (advance (Rocket.start r) (Rocket.current r)
                              (Rocket.target r) (Rocket.speed r)) r)
                  i (rocketsRef w) k r Hn ltac:(left; reflexivity)) as Hle.
    destruct (i =? -1)%Z; lia.
Qed.

Lemma missileStep_fresh k m (w : World N) :
  nth_error (missilesRef w) k = Some m -> Fresh w -> Fresh (missileStep k m w).
Proof.
  intros Hn Hw. unfold missileStep. destruct (nltb _ _).
  - apply (@Fresh_step w _ true Hw); [reflexivity|].
    intros i. unfold carriers.
    cbn [rocketsRef missilesRef explosionsRef nextIdRef pushExplosion set_nextId
         set_explosions set_missiles newExplosion andb].
    rewrite map_app, occ_app. unfold newExplosion. cbn [map Explosion.id].
    rewrite occ_one.
    destruct (Z.eqb_spec i (-1)) as [Hi|Hi]; [lia|].
    pose proof (@occ_writeAt _ (@Missile.id N)
                  (Missile.with_id (-1)
                     (Missile.with_current
                        (advance (Missile.start m) (Missile.current m)
                                 (Missile.target m) (Missile.speed m)) m))
                  i (missilesRef w) k m Hn) as Hle.
    cbn [Missile.id Missile.with_id] in Hle. specialize (Hle ltac:(right; lia)). lia.
  - apply (@Fresh_step w _ false Hw); [reflexivity|].
    intros i. unfold carriers. cbn [rocketsRef missilesRef explosionsRef set_missiles andb].
    pose proof (@occ_writeAt _ (@Missile.id N)
                  (Missile.with_current
                     (advance (Missile.start m) (Missile.current m)
                              (Missile.target m) (Missile.speed m)) m)
                  i (missilesRef w) k m Hn ltac:(left; reflexivity)) as Hle.
    destruct (i =? -1)%Z; lia.
Qed.

Lemma collide_fresh e j r (w : World N) :
  nth_error (rocketsRef w) j = Some r -> Fresh w -> Fresh (collide e j r w).
Proof.
  intros Hn Hw. unfold collide. destruct (nltb _ _); [|exact Hw].
  apply (@Fresh_step w _ true Hw); [reflexivity|].
  intros i. unfold carriers.
  cbn [rocketsRef missilesRef explosionsRef nextIdRef pushExplosion set_nextId
       set_explosions set_rockets setScore newExplosion andb].
  rewrite map_app, occ_app. unfold newExplosion. cbn [map Explosion.id].
    rewrite occ_one.
  destruct (Z.eqb_spec i (-1)) as [Hi|Hi]; [lia|].
  pose proof (@occ_writeAt _ (@Rocket.id N) (Rocket.with_id (-1) r)
                i (rocketsRef w) j r Hn) as Hle.
  cbn [Rocket.id Rocket.with_id] in Hle. specialize (Hle ltac:(right; lia)). lia.
Qed.

Lemma animate_id (e : Explosion.t N) : Explosion.id (animate e) = Explosion.id e.
Proof. unfold animate. destruct (Explosion.growing e); reflexivity. Qed.

Lemma explosionStep_fresh k e (w : World N) :
  nth_error (explosionsRef w) k = Some e -> Fresh w -> Fresh (explosionStep k e w).
Proof.
  intros Hn Hw. unfold explosionStep.
  apply (forEach_preserves (@rocketsRef N) (collide (animate e)) Fresh).
  - intros j r s Hj Hs. now apply collide_fresh.
  - apply (@Fresh_step w _ false Hw); [reflexivity|].
    intros i. unfold carriers. cbn [rocketsRef missilesRef explosionsRef set_explosions andb].
    pose proof (@occ_writeAt _ (@Explosion.id N) (animate e) i (explosionsRef w) k e Hn
                  ltac:(left; apply animate_id)) as Hle.
    lia.
Qed.

Lemma updateRockets_fresh (w : World N) : Fresh w -> Fresh (updateRockets w).
Proof.
  intros Hw. unfold updateRockets.
  pose proof (forEach_preserves (@rocketsRef N) rocketStep Fresh rocketStep_fresh w Hw)
    as Hf.
  apply (@Fresh_step _ _ false Hf); [reflexivity|].
  intros i. unfold carriers. cbn [rocketsRef missilesRef explosionsRef set_rockets andb].
  pose proof (occ_filter (@Rocket.id N) rocketAlive i
                (rocketsRef (forEach (@rocketsRef N) rocketStep w))).
  destruct (i =? -1)%Z; lia.
Qed.

Lemma updateMissiles_fresh (w : World N) : Fresh w -> Fresh (updateMissiles w).
Proof.
  intros Hw. unfold updateMissiles.
  pose proof (forEach_preserves (@missilesRef N) missileStep Fresh missileStep_fresh w Hw)
    as Hf.
  apply (@Fresh_step _ _ false Hf); [reflexivity|].
  intros i. unfold carriers. cbn [rocketsRef missilesRef explosionsRef set_missiles andb].
  pose proof (occ_filter (@Missile.id N) missileAlive i
                (missilesRef (forEach (@missilesRef N) missileStep w))).
  destruct (i =? -1)%Z; lia.
Qed.

Lemma updateExplosions_fresh (w : World N) : Fresh w -> Fresh (updateExplosions w).
Proof.
  intros Hw. unfold updateExplosions.
  pose proof (forEach_preserves (@explosionsRef N) explosionStep Fresh
                explosionStep_fresh w Hw) as Hf.
  apply (@Fresh_step _ _ false Hf); [reflexivity|].
  intros i. unfold carriers. cbn [rocketsRef missilesRef explosionsRef set_explosions andb].
  pose proof (occ_filter (@Explosion.id N) explosionAlive i
                (explosionsRef (forEach (@explosionsRef N) explosionStep w))).
  lia.
Qed.

Lemma spawnRockets_fresh env cv sc (w w1 : World N) :
  spawnRockets env cv sc w = Some w1 -> Fresh w -> Fresh w1.
Proof.
  intros Hs Hw. unfold spawnRockets in Hs.
  destruct (nltb _ _); [|injection Hs as <-; exact Hw].
  destruct (Nat.ltb _ _).
  - destruct (nth_error _ _) as [target|]; [|discriminate].
    injection Hs as <-.
    apply (@Fresh_step w _ true Hw); [reflexivity|].
    intros i. unfold carriers.
    cbn [rocketsRef missilesRef explosionsRef set_lastSpawnTime set_nextId set_rockets
         andb].
    rewrite map_app, occ_app. cbn [map Rocket.id]. rewrite occ_one.
    destruct (i =? -1)%Z; lia.
  - injection Hs as <-.
    apply (@Fresh_step w _ false Hw); [reflexivity|]. intros i.
    unfold carriers. cbn [rocketsRef missilesRef explosionsRef set_lastSpawnTime andb].
    lia.
Qed.

Lemma checkWinLoss_fresh sc (w : World N) : Fresh w -> Fresh (checkWinLoss sc w).
Proof.
  intros Hw. unfold checkWinLoss.
  destruct (sc >=? WIN_SCORE)%Z; destruct (allTurretsDown _); exact Hw.
Qed.

Lemma update_fresh env (w w' : World N) : update env w = Some w' -> Fresh w -> Fresh w'.
Proof.
  intros Hu Hw.
  destruct (update_cases _ _ Hu) as [->|(cv & w1 & _ & _ & Hs & ->)]; [exact Hw|].
  apply checkWinLoss_fresh, updateExplosions_fresh, updateMissiles_fresh,
    updateRockets_fresh.
  exact (@spawnRockets_fresh env cv (score w) w w1 Hs Hw).
Qed.

Lemma click_fresh e (w : World N) : Fresh w -> Fresh (handleCanvasClick e w).
Proof.
  intros Hw. unfold handleCanvasClick.
  destruct (negb _); [exact Hw|].
  destruct (click_canvas e) as [cv|]; [|exact Hw].
  destruct (closestTurret _ _ _ _ _) as [k|]; [|exact Hw].
  destruct (nth_error _ _) as [t|]; [|exact Hw].
  apply (@Fresh_step w _ true Hw); [reflexivity|].
  intros i. unfold carriers.
  cbn [rocketsRef missilesRef explosionsRef nextIdRef set_nextId set_missiles
       set_turrets andb].
  rewrite map_app, occ_app. cbn [map Missile.id]. rewrite occ_one.
  destruct (i =? -1)%Z; lia.
Qed.

Lemma initGame_fresh e (w : World N) : Fresh w -> Fresh (initGame e w).
Proof.
  intros [H0 _]. split; [exact H0|]. intros i. unfold carriers. cbn.
  destruct (i =? -1)%Z; split; auto.
Qed.

Lemma reachable_fresh (w : World N) : Reachable w -> Fresh w.
Proof.
  induction 1 as [|e w _ IH|env w w' _ IH Hu|e w _ IH].
  - split; [cbn; lia|]. intros i. unfold carriers. cbn.
    destruct (i =? -1)%Z; split; auto.
  - now apply initGame_fresh.
  - exact (@update_fresh env w w' Hu IH).
  - now apply click_fresh.
Qed.

Lemma occ_filter_unmarked (l : list Z) (i : Z) :
  occ (filter (fun j => negb (j =? -1)%Z) l) i
  = if (i =? -1)%Z then 0%nat else occ l i.
Proof.
  induction l as [|c l IH]; [now destruct (i =? -1)%Z|].
  unfold occ in *. cbn.
  destruct (Z.eqb_spec c (-1)) as [Hc|Hc]; cbn;
    destruct (Z.eq_dec c i) as [E|E], (Z.eqb_spec i (-1)) as [Hi|Hi];
    try lia; rewrite IH; cbn;
    try (destruct (Z.eqb_spec i (-1)); try lia; reflexivity).
Qed.

End FreshIds.

(** The ids in use: those of the rockets that carry no removal mark, of
    the missiles and of the explosions. *)
Definition liveIds {N : Type} (w : World N) : list Z :=
  filter (fun j => negb (j =? -1)%Z) (map (@Rocket.id N) (rocketsRef w))
  ++ map (@Missile.id N) (missilesRef w)
  ++ map (@Explosion.id N) (explosionsRef w).

Lemma liveIds_carriers {N : Type} `{Number N} (w : World N) (i : Z) :
  Forall (fun m => missileAlive m = true) (missilesRef w) ->
  count_occ Z.eq_dec (liveIds w) i = carriers w i.
Proof.
  intros Hm. unfold liveIds, carriers.
  rewrite !count_occ_app. fold (occ (filter (fun j => negb (j =? -1)%Z)
                                       (map (@Rocket.id N) (rocketsRef w))) i).
  rewrite occ_filter_unmarked. unfold occ.
  destruct (Z.eqb_spec i (-1)) as [->|Hi]; [|lia].
  assert (H0 : count_occ Z.eq_dec (map (@Missile.id N) (missilesRef w)) (-1)%Z = 0%nat).
  { apply count_occ_not_In. intros Hin. apply in_map_iff in Hin.
    destruct Hin as [m [Hid Hin]].
    rewrite Forall_forall in Hm. specialize (Hm m Hin).
    unfold missileAlive in Hm. rewrite Hid in Hm. discriminate. }
  lia.
Qed.

(** X13. In every world a session can reach, the ids in use are pairwise
    different, across rockets, missiles and explosions, and each was
    handed out by the counter: it is at least 0 and below
    [nextIdRef.current].  So the mark [-1] is the id of no object, and
    the counter, which [initGame] does not reset, never hands out an id
    twice. *)
Theorem ids_are_unique {N : Type} `{Number N} (w : World N) :
  Reachable w ->
  NoDup (liveIds w) /\ Forall (fun i => (0 <= i < nextIdRef w)%Z) (liveIds w).
Proof.
  intros Hr.
  destruct (reachable_fresh Hr) as [H0 Hf].
  destruct (reachable_missiles_alive Hr) as [_ Hm].
  split.
  - apply (NoDup_count_occ Z.eq_dec). intros i.
    rewrite (@liveIds_carriers _ _ w i Hm). exact (proj1 (Hf i)).
  - apply Forall_forall. intros i Hin.
    apply (count_occ_In Z.eq_dec) in Hin. rewrite (@liveIds_carriers _ _ w i Hm) in Hin.
    destruct (Hf i) as [_ H2].
    destruct (Z_lt_dec i 0) as [Hlt|Hge]; [rewrite H2 in Hin by lia; lia|].
    destruct (Z_le_dec (nextIdRef w) i) as [Hle|Hgt]; [rewrite H2 in Hin by lia; lia|].
    lia.
Qed.

(** A fresh match after two clicks: the missiles carry the ids 0 and 1. *)
Lemma ids_are_unique_witness :
  Reachable (handleCanvasClick (Scenario.clickAt 700 200)
               (handleCanvasClick (Scenario.clickAt 400 300) Scenario.freshMatch))
  /\ liveIds (handleCanvasClick (Scenario.clickAt 700 200)
                (handleCanvasClick (Scenario.clickAt 400 300) Scenario.freshMatch))
     = [0; 1]%Z
  /\ NoDup (liveIds (handleCanvasClick (Scenario.clickAt 700 200)
                       (handleCanvasClick (Scenario.clickAt 400 300)
                                          Scenario.freshMatch))).
Proof.
  assert (Hr : Reachable (handleCanvasClick (Scenario.clickAt 700 200)
                 (handleCanvasClick (Scenario.clickAt 400 300) Scenario.freshMatch))).
  { do 2 apply reach_click. apply reach_init. apply reach_mount. }
  split; [exact Hr|]. split; [vm_compute; reflexivity|].
  exact (proj1 (@ids_are_unique _ _ _ Hr)).
Defined.

(** ** When a frame fails, and what a new match looks like *)

Section FrameFailure.
Context {N : Type} `{Number N}.
Local Open Scope num_scope.

(** The test of line 174. *)
Definition spawnDue (env : TickEnv N) (w : World N) : bool :=
  (time env - lastSpawnTimeRef w)
  >? nmax (lit 500) (lit 2000 - (ofInt (score w) / lit 100) * lit 200).

Lemma spawnRockets_none env cv (w : World N) :
  spawnRockets env cv (score w) w = None
  <-> spawnDue env w = true
      /\ activeTargets w <> []
      /\ (List.length (activeTargets w) <= random_pick env)%nat.
Proof.
  unfold spawnRockets, spawnDue.
  destruct (nltb _ _); [|split; [discriminate|intros [? _]; discriminate]].
  destruct (activeTargets w) as [|a l] eqn:Ht.
  - cbn. split; [discriminate|]. intros [_ [Hne _]]. congruence.
  - cbn [List.length Nat.ltb Nat.leb].
    destruct (nth_error (a :: l) (random_pick env)) as [t|] eqn:Hn.
    + split; [discriminate|]. intros [_ [_ Hle]].
      assert (Hx : nth_error (a :: l) (random_pick env) = None)
        by (apply nth_error_None; exact Hle).
      congruence.
    + split; [|reflexivity]. intros _. split; [reflexivity|]. split; [discriminate|].
      apply nth_error_None in Hn. exact Hn.
Qed.

End FrameFailure.

(** X14. A frame fails (the TypeError of reading [target.x] of
    [undefined]) exactly when the match is in progress, the canvas is
    there, the spawner is due, some installation is active and the index
    drawn for the target is not below the number of active
    installations; so with an index below that number, as
    [Math.floor(Math.random() * targets.length)] gives, every frame
    returns a world. *)
Theorem frame_fails_only_on_bad_index {N : Type} `{Number N}
        (env : TickEnv N) (w : World N) :
  (update env w = None
   <-> gameState w = PLAYING
       /\ canvas env <> None
       /\ spawnDue env w = true
       /\ activeTargets w <> []
       /\ (List.length (activeTargets w) <= random_pick env)%nat)
  /\ ((random_pick env < List.length (activeTargets w))%nat ->
      exists w', update env w = Some w').
Proof.
  assert (Hiff : update env w = None
                 <-> gameState w = PLAYING
                     /\ canvas env <> None
                     /\ spawnDue env w = true
                     /\ activeTargets w <> []
                     /\ (List.length (activeTargets w) <= random_pick env)%nat).
  { unfold update.
    destruct (gameState w) eqn:Hg; cbn [GameState_eqb negb];
      try (split; [discriminate|intros [Hp _]; discriminate]).
    destruct (canvas env) as [cv|] eqn:Hc;
      [|split; [discriminate|intros [_ [Hn _]]; congruence]].
    pose proof (spawnRockets_none env cv w) as Hs.
    destruct (spawnRockets env cv (score w) w) as [w1|].
    - split; [discriminate|]. intros [_ [_ Hrest]].
      apply Hs in Hrest. discriminate.
    - split; [|reflexivity]. intros _. split; [reflexivity|].
      split; [discriminate|]. apply Hs. reflexivity. }
  split; [exact Hiff|].
  intros Hlt. destruct (update env w) as [w'|] eqn:Hu; [now exists w'|].
  destruct (proj1 Hiff eq_refl) as [_ [_ [_ [_ Hle]]]]. lia.
Qed.


Module Layout.
Import Exact.
Local Open Scope R_scope.


End Layout.


